(** * APTITUDE-AI: the quiz flow of [src/App.tsx]

    A shallow embedding of the [App] component: the question loader (the
    [fetch(...).then] callback), the event handlers, the part of the render
    function that decides which controls exist, and the score summary.

    Conventions of the embedding.
    - A JS string is a [string]; its characters are read as the UTF-16 code
      units 0..255, which is what [ascii] can hold.
    - [number] values that come from [charCodeAt] arithmetic are [jsint]
      (an integer or NaN).  The percentage that is compared with the
      thresholds and the width of the progress bar are [jsreal]s (a
      rational, Infinity or NaN), the doubles taken as exact rationals; the
      percentage that the results screen rounds is computed in binary64.
    - An exception is a value of [result]; the React state is one record and
      every handler maps the state of the last render to the next one. *)

From Stdlib Require Import String Ascii List ZArith NArith QArith Qround Bool Lia.
From Stdlib Require Import Permutation.
From Stdlib Require Floats.SpecFloat.
Import ListNotations.

Local Open Scope string_scope.
Local Open Scope list_scope.
Local Open Scope Z_scope.

(** ** Results of code that can throw *)

Inductive error : Type :=
| TypeError.

Inductive result (A : Type) : Type :=
| OK (a : A)
| Throw (e : error).

Arguments OK {A} a.
Arguments Throw {A} e.

Definition bind {A B : Type} (r : result A) (k : A -> result B) : result B :=
  match r with
  | OK a => k a
  | Throw e => Throw e
  end.

Notation "x <- r ;; k" := (bind r (fun x => k))
  (at level 61, r at next level, right associativity).

(** ** Strings *)

Module JsString.

Definition code (c : ascii) : Z := Z.of_N (N_of_ascii c).

Definition of_code (z : Z) : ascii := ascii_of_N (Z.to_N z).

(** The code units below 256 that the regular expression class [\s] matches:
    TAB, LF, VT, FF, CR, SPACE and NO-BREAK SPACE. *)
Definition is_space (c : ascii) : bool :=
  let n := code c in
  ((9 <=? n) && (n <=? 13)) || (n =? 32) || (n =? 160).

(** The code units below 256 that [toLowerCase] changes: A..Z and the
    Latin-1 capitals U+00C0..U+00DE without U+00D7.  On
    these code units [toLowerCase] works unit by unit; on others (U+0130)
    it can change the length of the string, which is outside this model. *)
Definition is_upper (c : ascii) : bool :=
  let n := code c in
  ((65 <=? n) && (n <=? 90)) ||
  ((192 <=? n) && (n <=? 222) && negb (n =? 215)).

Definition lower_char (c : ascii) : ascii :=
  if is_upper c then of_code (code c + 32) else c.

Fixpoint toLowerCase (s : string) : string :=
  match s with
  | EmptyString => EmptyString
  | String c r => String (lower_char c) (toLowerCase r)
  end.

(** [s.replace(/\s+/g, '-')]: scanning left to right, every maximal run of
    [\s] characters becomes one hyphen.  [in_run] says that the previous
    character belonged to a run that has already been replaced. *)
Fixpoint replace_runs (in_run : bool) (s : string) : string :=
  match s with
  | EmptyString => EmptyString
  | String c r =>
      if is_space c
      then if in_run then replace_runs true r
           else String "-" (replace_runs true r)
      else String c (replace_runs false r)
  end.

Definition replace_whitespace (s : string) : string := replace_runs false s.

(** Every character of [s] satisfies [p]. *)
Fixpoint all_chars (p : ascii -> bool) (s : string) : bool :=
  match s with
  | EmptyString => true
  | String c r => p c && all_chars p r
  end.



(** [hay.includes(needle)] *)
Fixpoint includes (hay needle : string) : bool :=
  String.prefix needle hay ||
  match hay with
  | EmptyString => false
  | String _ r => includes r needle
  end.

End JsString.

(** ** Numbers *)

Inductive jsint : Type :=
| Int (z : Z)
| NaN.

(** [s.charCodeAt(0)] *)
Definition charCodeAt0 (s : string) : jsint :=
  match s with
  | EmptyString => NaN
  | String c _ => Int (JsString.code c)
  end.

Definition jsint_sub (a b : jsint) : jsint :=
  match a, b with
  | Int x, Int y => Int (x - y)
  | _, _ => NaN
  end.

(** [a === c] for an integer [a]: NaN is equal to nothing. *)
Definition strict_eq (a : Z) (c : jsint) : bool :=
  match c with
  | Int z => a =? z
  | NaN => false
  end.

(** The doubles of the summary, taken as exact rationals.  The quotients
    that sit on a threshold do so in double arithmetic as well: [0.8 * 100],
    [0.6 * 100] and [0.4 * 100] evaluate to 80, 60 and 40. *)
Inductive jsreal : Type :=
| Real (q : Q)
| Infinity
| NotANumber.

(** [a / b] for two non-negative integers. *)
Definition js_div (a b : nat) : jsreal :=
  match b with
  | O => match a with O => NotANumber | S _ => Infinity end
  | S _ => Real (Z.of_nat a # Pos.of_nat b)
  end.

Definition js_mul (x : jsreal) (k : Z) : jsreal :=
  match x with
  | Real q => Real (q * inject_Z k)
  | other => other
  end.

(** [x >= k] *)
Definition js_ge (x : jsreal) (k : Z) : bool :=
  match x with
  | Real q => Qle_bool (inject_Z k) q
  | Infinity => true
  | NotANumber => false
  end.

(** ** Binary64

    The doubles of the results screen, with the operations of the Standard
    Library's specification of IEEE 754 (round to nearest, ties to even). *)

Definition double : Type := SpecFloat.spec_float.

(** A non-negative integer as a double. *)
Definition double_of_nat (n : nat) : double :=
  SpecFloat.binary_normalize 53 1024 (Z.of_nat n) 0 false.

Definition double_div (x y : double) : double := SpecFloat.SFdiv 53 1024 x y.

Definition double_mul (x y : double) : double := SpecFloat.SFmul 53 1024 x y.

(** [x >= k] for a double [x]. *)
Definition double_ge (x : double) (k : nat) : bool :=
  SpecFloat.SFleb (double_of_nat k) x.

(** [(a / b) * 100] for two non-negative integers. *)
Definition double_percentage (a b : nat) : double :=
  double_mul (double_div (double_of_nat a) (double_of_nat b)) (double_of_nat 100).

(** [Math.round(x)]: the integer nearest to the value of [x], ties towards
    +Infinity, computed exactly from the mantissa and the exponent.  The
    result is read as a [jsreal], which has one zero and one infinity: the
    doubles rounded here are quotients and products of array lengths and
    counters, never negative. *)
Definition Math_round (x : double) : jsreal :=
  match x with
  | SpecFloat.S754_zero _ => Real (inject_Z 0)
  | SpecFloat.S754_infinity _ => Infinity
  | SpecFloat.S754_nan => NotANumber
  | SpecFloat.S754_finite sign m e =>
      let v := if sign then Z.neg m else Z.pos m in
      Real (inject_Z (if 0 <=? e then v * 2 ^ e
                      else (2 * v + 2 ^ (- e)) / 2 ^ (1 - e)))
  end.

(** ** Data model *)

Record RawQuestion : Type := mkRawQuestion {
  raw_category : string;
  raw_question : string;
  raw_options : list string;
  raw_answer : string
}.

Record Question : Type := mkQuestion {
  id : nat;
  question : string;
  options : list string;
  correct : jsint
}.

Inductive Icon : Type :=
| Code | Monitor | Brain | Calculator | MessageCircle | Award.

Record TestCategory : Type := mkTestCategory {
  cat_id : string;
  name : string;
  icon : Icon;
  questions : list Question
}.

Inductive AppState : Type :=
| welcome | category_selection | testing | results.

(** ** The object [grouped]

    [grouped] starts as [{}] and is used as a map from category names to
    arrays.  Two things of a JS object show through in the loader and are
    modelled:
    - a property read falls back to [Object.prototype], so a category named
      like one of its members is found although no bucket was created;
    - [Object.entries] lists the own keys that are array indices first, in
      ascending numeric order, and the other keys in creation order.
    [Obj] keeps the own properties in the order of [Object.entries]. *)

Module JsObject.

Definition Obj : Type := list (string * list Question).

Definition digit (c : ascii) : option N :=
  let n := N_of_ascii c in
  if ((48 <=? n) && (n <=? 57))%N then Some (n - 48)%N else None.

Fixpoint digits (acc : N) (s : string) : option N :=
  match s with
  | EmptyString => Some acc
  | String c r =>
      match digit c with
      | Some d => digits (acc * 10 + d)%N r
      | None => None
      end
  end.

(** A key is an array index when it is the canonical decimal numeral of an
    integer in 0 .. 2^32 - 2. *)
Definition array_index (k : string) : option N :=
  match k with
  | EmptyString => None
  | String c r =>
      match digit c with
      | None => None
      | Some d =>
          match r with
          | EmptyString => Some d
          | String _ _ =>
              if (d =? 0)%N then None
              else match digits d r with
                   | Some n => if (n <? 4294967295)%N then Some n else None
                   | None => None
                   end
          end
      end
  end.

(** The members of [Object.prototype]; every one of them is a function or
    an object, hence truthy, and none of them has a [push] method. *)
Definition prototype_keys : list string :=
  [ "constructor"; "hasOwnProperty"; "isPrototypeOf";
    "propertyIsEnumerable"; "toLocaleString"; "toString"; "valueOf";
    "__proto__"; "__defineGetter__"; "__defineSetter__";
    "__lookupGetter__"; "__lookupSetter__" ].

Definition inherited (k : string) : bool :=
  existsb (String.eqb k) prototype_keys.

Inductive value : Type :=
| Undefined
| Bucket (qs : list Question)
| Inherited.

Fixpoint own (o : Obj) (k : string) : option (list Question) :=
  match o with
  | [] => None
  | (k', v) :: o' => if String.eqb k' k then Some v else own o' k
  end.

(** [o[k]] *)
Definition get (o : Obj) (k : string) : value :=
  match own o k with
  | Some v => Bucket v
  | None => if inherited k then Inherited else Undefined
  end.

Definition truthy (v : value) : bool :=
  match v with
  | Undefined => false
  | Bucket _ | Inherited => true
  end.

Fixpoint define_index (n : N) (k : string) (v : list Question) (o : Obj) : Obj :=
  match o with
  | [] => [(k, v)]
  | (k', v') :: o' =>
      match array_index k' with
      | Some n' =>
          if (n' <? n)%N then (k', v') :: define_index n k v o'
          else (k, v) :: o
      | None => (k, v) :: o
      end
  end.

(** [o[k] = v] for a key that [o] does not own yet. *)
Definition define (o : Obj) (k : string) (v : list Question) : Obj :=
  match array_index k with
  | Some n => define_index n k v o
  | None => (o ++ [(k, v)])%list
  end.

(** [o[k].push(q)] for an own bucket: the array is updated in place. *)
Fixpoint push_own (o : Obj) (k : string) (q : Question) : Obj :=
  match o with
  | [] => []
  | (k', v) :: o' =>
      if String.eqb k' k then (k', (v ++ [q])%list) :: o'
      else (k', v) :: push_own o' k q
  end.

(** [o[k].push(q)]: only an array has [push]. *)
Definition push (o : Obj) (k : string) (q : Question) : result Obj :=
  match get o k with
  | Bucket _ => OK (push_own o k q)
  | Undefined | Inherited => Throw TypeError
  end.

(** [Object.entries(o)] *)
Definition entries (o : Obj) : list (string * list Question) := o.

(** All the questions held by the buckets, in the order of the entries. *)
Definition contents (o : Obj) : list Question := concat (map snd o).

(** Every bucket of [o] satisfies [P], which may look at the key. *)
Definition buckets (P : string -> list Question -> Prop) (o : Obj) : Prop :=
  Forall (fun e => P (fst e) (snd e)) o.

(** A bucket is good when it is not empty and all its questions satisfy
    [Q], which may look at the key of the bucket. *)
Definition good (Q : string -> Question -> Prop) (k : string)
           (v : list Question) : Prop :=
  v <> [] /\ Forall (Q k) v.

End JsObject.

(** ** The loader: the callback of [fetch('/questions.json')] *)

Definition getIconForCategory (category : string) : Icon :=
  let lc := JsString.toLowerCase category in
  if JsString.includes lc "software" then Code
  else if JsString.includes lc "computer" then Monitor
  else if JsString.includes lc "logical" then Brain
  else if JsString.includes lc "quantitative" then Calculator
  else if JsString.includes lc "verbal" then MessageCircle
  else Award.

Definition slug (category : string) : string :=
  JsString.replace_whitespace (JsString.toLowerCase category).

Definition correctIndex (q : RawQuestion) : jsint :=
  jsint_sub (charCodeAt0 (raw_answer q)) (charCodeAt0 "A").

Definition formatted (q : RawQuestion) (index : nat) : Question :=
  {| id := index + 1;
     question := raw_question q;
     options := raw_options q;
     correct := correctIndex q |}.

(** The body of [data.forEach((q, index) => ...)]. *)
Definition group_one (grouped : JsObject.Obj) (q : RawQuestion) (index : nat)
  : result JsObject.Obj :=
  let grouped1 :=
    if negb (JsObject.truthy (JsObject.get grouped (raw_category q)))
    then JsObject.define grouped (raw_category q) []
    else grouped in
  JsObject.push grouped1 (raw_category q) (formatted q index).

Fixpoint forEach (data : list RawQuestion) (index : nat) (grouped : JsObject.Obj)
  : result JsObject.Obj :=
  match data with
  | [] => OK grouped
  | q :: rest =>
      grouped' <- group_one grouped q index ;;
      forEach rest (S index) grouped'
  end.

Definition to_category (entry : string * list Question) : TestCategory :=
  let '(category, qs) := entry in
  {| cat_id := slug category;
     name := category;
     icon := getIconForCategory category;
     questions := qs |}.

Definition load (data : list RawQuestion) : result (list TestCategory) :=
  grouped <- forEach data 0 [] ;;
  OK (map to_category (JsObject.entries grouped)).

(** ** The component state and its handlers *)

Record State : Type := mkState {
  currentState : AppState;
  selectedCategory : option TestCategory;
  currentQuestionIndex : nat;
  userAnswers : list Z;
  showExplanation : bool;
  score : nat;
  voiceOn : bool;
  testCategories : list TestCategory
}.

(** The initial values of the [useState] hooks. *)
Definition initial : State :=
  {| currentState := welcome;
     selectedCategory := None;
     currentQuestionIndex := 0;
     userAnswers := [];
     showExplanation := false;
     score := 0;
     voiceOn := true;
     testCategories := [] |}.

Definition setCurrentState (v : AppState) (s : State) : State :=
  mkState v (selectedCategory s) (currentQuestionIndex s) (userAnswers s)
          (showExplanation s) (score s) (voiceOn s) (testCategories s).

Definition setSelectedCategory (v : option TestCategory) (s : State) : State :=
  mkState (currentState s) v (currentQuestionIndex s) (userAnswers s)
          (showExplanation s) (score s) (voiceOn s) (testCategories s).

Definition setCurrentQuestionIndex (v : nat) (s : State) : State :=
  mkState (currentState s) (selectedCategory s) v (userAnswers s)
          (showExplanation s) (score s) (voiceOn s) (testCategories s).

Definition setUserAnswers (v : list Z) (s : State) : State :=
  mkState (currentState s) (selectedCategory s) (currentQuestionIndex s) v
          (showExplanation s) (score s) (voiceOn s) (testCategories s).

Definition setShowExplanation (v : bool) (s : State) : State :=
  mkState (currentState s) (selectedCategory s) (currentQuestionIndex s)
          (userAnswers s) v (score s) (voiceOn s) (testCategories s).

Definition setScore (v : nat) (s : State) : State :=
  mkState (currentState s) (selectedCategory s) (currentQuestionIndex s)
          (userAnswers s) (showExplanation s) v (voiceOn s) (testCategories s).

Definition setVoiceOn (v : bool) (s : State) : State :=
  mkState (currentState s) (selectedCategory s) (currentQuestionIndex s)
          (userAnswers s) (showExplanation s) (score s) v (testCategories s).

Definition setTestCategories (v : list TestCategory) (s : State) : State :=
  mkState (currentState s) (selectedCategory s) (currentQuestionIndex s)
          (userAnswers s) (showExplanation s) (score s) (voiceOn s) v.

Definition handleStart (s : State) : State :=
  setCurrentState category_selection s.

Definition handleCategorySelect (category : TestCategory) (s : State) : State :=
  setScore 0
    (setShowExplanation false
      (setUserAnswers []
        (setCurrentQuestionIndex 0
          (setCurrentState testing
            (setSelectedCategory (Some category) s))))).

(** [selectedCategory!.questions[currentQuestionIndex]], an access that
    throws on [null] and yields [undefined] (here [None]) out of range. *)
Definition currentQuestion (s : State) : result (option Question) :=
  match selectedCategory s with
  | None => Throw TypeError
  | Some c => OK (nth_error (questions c) (currentQuestionIndex s))
  end.

Definition handleAnswer (answerIndex : Z) (s : State) : result State :=
  if showExplanation s then OK s
  else
    cq <- currentQuestion s ;;
    match cq with
    | None => Throw TypeError
    | Some q =>
        let isCorrect := strict_eq answerIndex (correct q) in
        let newAnswers := (userAnswers s ++ [answerIndex])%list in
        let s1 := setUserAnswers newAnswers s in
        let s2 := if isCorrect then setScore (score s + 1) s1 else s1 in
        OK (setShowExplanation true s2)
    end.

Definition handleNext (s : State) : result State :=
  match selectedCategory s with
  | None => Throw TypeError
  | Some c =>
      if Z.of_nat (currentQuestionIndex s) <? Z.of_nat (length (questions c)) - 1
      then OK (setShowExplanation false
                 (setCurrentQuestionIndex (currentQuestionIndex s + 1) s))
      else OK (setCurrentState results s)
  end.

Definition resetTest (s : State) : State :=
  setScore 0
    (setShowExplanation false
      (setUserAnswers []
        (setCurrentQuestionIndex 0
          (setSelectedCategory None
            (setCurrentState welcome s))))).

(** ** Scoring and summary *)

Definition getScoreMessage (s : State) : result string :=
  match selectedCategory s with
  | None => Throw TypeError
  | Some c =>
      let percentage := js_mul (js_div (score s) (length (questions c))) 100 in
      if js_ge percentage 80 then OK "Excellent performance."
      else if js_ge percentage 60 then OK "Good performance."
      else if js_ge percentage 40 then OK "Average performance."
      else OK "Needs improvement."
  end.

(** The [percentage] constant of the results screen. *)
Definition accuracyPercent (s : State) : result jsreal :=
  match selectedCategory s with
  | None => Throw TypeError
  | Some c =>
      OK (Math_round (double_percentage (score s) (length (questions c))))
  end.

(** ** Events

    What can happen to the component: the fetch resolves, or the user clicks
    a control that the last render put on the screen. *)

Inductive Event : Type :=
| Fetched (data : list RawQuestion)
| ClickBegin
| ClickCategory (k : nat)
| ClickOption (index : nat)
| ClickVoice
| ClickNext
| ClickNewAssessment.

(** The question shown by the testing screen; the render throws when there
    is none, and then the screen has no control at all. *)
Definition shownQuestion (s : State) : option Question :=
  match currentState s, selectedCategory s with
  | testing, Some c => nth_error (questions c) (currentQuestionIndex s)
  | _, _ => None
  end.

(** [rendered s e]: the render of state [s] contains the control of [e] and
    the control is not disabled. *)
Definition rendered (s : State) (e : Event) : bool :=
  match e with
  | Fetched _ => true
  | ClickBegin =>
      match currentState s with welcome => true | _ => false end
  | ClickCategory k =>
      match currentState s with
      | category_selection => (k <? length (testCategories s))%nat
      | _ => false
      end
  | ClickOption index =>
      match shownQuestion s with
      | Some q => (index <? length (options q))%nat && negb (showExplanation s)
      | None => false
      end
  | ClickVoice =>
      match shownQuestion s with Some _ => true | None => false end
  | ClickNext =>
      match shownQuestion s with Some _ => showExplanation s | None => false end
  | ClickNewAssessment =>
      match currentState s, selectedCategory s with
      | results, Some _ => true
      | _, _ => false
      end
  end.

Definition step (s : State) (e : Event) : result State :=
  match e with
  | Fetched data =>
      match load data with
      | OK categories => OK (setTestCategories categories s)
      | Throw _ => OK s
      end
  | ClickBegin => OK (handleStart s)
  | ClickCategory k =>
      match nth_error (testCategories s) k with
      | Some category => OK (handleCategorySelect category s)
      | None => OK s
      end
  | ClickOption index => handleAnswer (Z.of_nat index) s
  | ClickVoice => OK (setVoiceOn (negb (voiceOn s)) s)
  | ClickNext => handleNext s
  | ClickNewAssessment => OK (resetTest s)
  end.

(** The states the running component can be in. *)
Inductive reachable : State -> Prop :=
| reachable_initial : reachable initial
| reachable_step (s s' : State) (e : Event) :
    reachable s -> rendered s e = true -> step s e = OK s' -> reachable s'.

(** Replays a list of events; [None] when one of them is not on the screen
    or its handler throws. *)
Fixpoint run (s : State) (es : list Event) : option State :=
  match es with
  | [] => Some s
  | e :: es' =>
      if rendered s e
      then match step s e with
           | OK s' => run s' es'
           | Throw _ => None
           end
      else None
  end.

(** [score] as the spec defines it: the number of positions [i] with
    [answers[i] === questions[i].correct]. *)
Fixpoint count_correct (qs : list Question) (answers : list Z) : nat :=
  match qs, answers with
  | q :: qs', a :: answers' =>
      ((if strict_eq a (correct q) then 1 else 0) + count_correct qs' answers')%nat
  | _, _ => 0%nat
  end.

(** [0 <= correctIndex < length(options)] *)
Definition valid_index (c : jsint) (n : nat) : Prop :=
  match c with
  | Int z => 0 <= z < Z.of_nat n
  | NaN => False
  end.

(** ** Notions used to state the properties *)

(** Equality of two [jsint]s is decidable. *)
Definition jsint_eq_dec (a b : jsint) : {a = b} + {a <> b}.
Proof.
  decide equality. apply Z.eq_dec.
Defined.

(** The number of positions [i] at which the correct index of
    [questions[i]] is [answers[i]]. *)
Fixpoint count_equal (qs : list Question) (answers : list Z) : nat :=
  match qs, answers with
  | q :: qs', a :: answers' =>
      ((if jsint_eq_dec (correct q) (Int a) then 1 else 0)
       + count_equal qs' answers')%nat
  | _, _ => 0%nat
  end.

(** The questions made from the records, in input order, numbering the
    first record [index]. *)
Fixpoint format_from (data : list RawQuestion) (index : nat) : list Question :=
  match data with
  | [] => []
  | q :: rest => formatted q index :: format_from rest (S index)
  end.

(** All questions of a catalog, category after category. *)
Definition all_questions (cats : list TestCategory) : list Question :=
  concat (map questions cats).

(** No record is filed under the name of a member of [Object.prototype]. *)
Definition plain_categories (data : list RawQuestion) : Prop :=
  Forall (fun q => JsObject.inherited (raw_category q) = false) data.

(** Where the questions of a loaded category come from. *)
Definition from_record (data : list RawQuestion) (k : string) (q : Question) : Prop :=
  exists (j : nat) (r : RawQuestion),
    nth_error data j = Some r /\ q = formatted r j /\ k = raw_category r.

(** What holds in every state the component can reach. *)
Record session_inv (s : State) : Prop := {
  inv_catalog : Forall (fun c => questions c <> []) (testCategories s);
  inv_no_session :
    selectedCategory s = None ->
    currentState s = welcome \/ currentState s = category_selection;
  inv_screen :
    forall c, selectedCategory s = Some c ->
      currentState s = testing \/
      (currentState s = results /\ showExplanation s = true);
  inv_index :
    forall c, selectedCategory s = Some c ->
      (currentQuestionIndex s < length (questions c))%nat;
  inv_answers :
    forall c, selectedCategory s = Some c ->
      length (userAnswers s) =
      (currentQuestionIndex s + if showExplanation s then 1 else 0)%nat;
  inv_score :
    forall c, selectedCategory s = Some c ->
      score s = count_correct (questions c) (userAnswers s)
}.

(** The message that the thresholds give for a percentage. *)
Definition message_for (percentage : jsreal) : string :=
  if js_ge percentage 80 then "Excellent performance."
  else if js_ge percentage 60 then "Good performance."
  else if js_ge percentage 40 then "Average performance."
  else "Needs improvement.".

(** ** Sample inputs and sessions *)

(** The two categories of the round-trip scenario. *)
Definition two_categories : list RawQuestion :=
  [ mkRawQuestion "Logical Reasoning" "Which number comes next: 1, 2, 3?"
                  ["2"; "4"; "6"; "8"] "B";
    mkRawQuestion "Verbal Ability" "Which animal purrs?"
                  ["Cat"; "Dog"; "Fish"; "Bird"] "A" ].

(** One category with two questions. *)
Definition two_questions : list RawQuestion :=
  [ mkRawQuestion "Computer Knowledge" "How many bits are in a byte?"
                  ["4"; "8"; "16"; "32"] "B";
    mkRawQuestion "Computer Knowledge" "Which one is volatile memory?"
                  ["RAM"; "ROM"; "SSD"; "DVD"] "A" ].

(** A record whose answer letter is beyond its four options, and the
    question and the category that the loader makes of it. *)
Definition out_of_range_record : RawQuestion :=
  mkRawQuestion "Logical Reasoning" "Which number comes next: 1, 2, 3?"
                ["2"; "4"; "6"; "8"] "Z".

Definition letter_out_of_range : list RawQuestion := [out_of_range_record].



(** A record filed under the name of a member of [Object.prototype]. *)
Definition inherited_category : list RawQuestion :=
  [ mkRawQuestion "constructor" "What does a constructor return?"
                  ["An object"; "A number"] "A" ].

(** Forty-four questions of one category, all with answer "A". *)
Definition forty_four : list RawQuestion :=
  repeat (mkRawQuestion "Quantitative Aptitude" "What is 1 + 1?"
                        ["2"; "3"; "4"; "5"] "A") 44.

(** Opens the first category of [data]. *)
Definition open_first (data : list RawQuestion) : list Event :=
  [Fetched data; ClickBegin; ClickCategory 0].

(** Answers [n] questions with option [index], moving on after each. *)
Definition answer_all (index n : nat) : list Event :=
  concat (repeat [ClickOption index; ClickNext] n).

(** The testing screen of [letter_out_of_range], before any answer. *)
Definition malformed_session : State :=
  Eval vm_compute in
    match run initial (open_first letter_out_of_range) with
    | Some s => s
    | None => initial
    end.

(** The testing screen of [two_questions], before any answer. *)
Definition unanswered_session : State :=
  Eval vm_compute in
    match run initial (open_first two_questions) with
    | Some s => s
    | None => initial
    end.

(** The last question of [two_questions], answered. *)
Definition answered_last_session : State :=
  Eval vm_compute in
    match run initial (open_first two_questions ++
                       [ClickOption 1; ClickNext; ClickOption 0]) with
    | Some s => s
    | None => initial
    end.

(** A session on [forty_four]: 35 right answers, then 9 wrong ones. *)
Definition near_miss_session : State :=
  Eval vm_compute in
    match run initial (open_first forty_four ++ answer_all 0 35 ++ answer_all 1 9) with
    | Some s => s
    | None => initial
    end.

(** ** Notions used to state the further properties *)

(** The keys of an object, in the order of [Object.entries]. *)
Definition keys (o : JsObject.Obj) : list string := map fst o.

(** The bucket that [o] owns under [k]; empty when there is none. *)
Definition bucket (o : JsObject.Obj) (k : string) : list Question :=
  match JsObject.own o k with
  | Some v => v
  | None => []
  end.

(** The questions of the records filed under [k], in input order, numbering
    the first record [index]. *)
Fixpoint bucket_of (data : list RawQuestion) (index : nat) (k : string)
  : list Question :=
  match data with
  | [] => []
  | r :: rest =>
      if String.eqb (raw_category r) k
      then formatted r index :: bucket_of rest (S index) k
      else bucket_of rest (S index) k
  end.

(** [k] is one of [ks]. *)
Definition mem (k : string) (ks : list string) : bool :=
  existsb (String.eqb k) ks.

(** The distinct names of [ks] that are not in [seen], each at the place of
    its first occurrence. *)
Fixpoint first_occ_excl (seen ks : list string) : list string :=
  match ks with
  | [] => []
  | k :: r =>
      if mem k seen then first_occ_excl seen r
      else k :: first_occ_excl (k :: seen) r
  end.

Definition first_occurrences (ks : list string) : list string :=
  first_occ_excl [] ks.

(** [k] is not an array index. *)
Definition named (k : string) : bool :=
  match JsObject.array_index k with
  | Some _ => false
  | None => true
  end.

(** The array indices of [ks] come first, none below [bound] and none
    below the one before it; no array index follows another key. *)
Fixpoint index_first_from (bound : N) (ks : list string) : Prop :=
  match ks with
  | [] => True
  | k :: r =>
      match JsObject.array_index k with
      | Some n => (bound <= n)%N /\ index_first_from n r
      | None => Forall (fun k' => named k' = true) r
      end
  end.

Definition index_first (ks : list string) : Prop := index_first_from 0 ks.

(** The key list after [o[k] = v] for a key that is not in it. *)
Fixpoint insert_index_key (n : N) (k : string) (ks : list string) : list string :=
  match ks with
  | [] => [k]
  | k' :: r =>
      match JsObject.array_index k' with
      | Some n' =>
          if (n' <? n)%N then k' :: insert_index_key n k r else k :: ks
      | None => k :: ks
      end
  end.

Definition insert_key (k : string) (ks : list string) : list string :=
  match JsObject.array_index k with
  | Some n => insert_index_key n k ks
  | None => ks ++ [k]
  end.

(** Records filed under numerals and under names, one name twice. *)
Definition mixed_names : list RawQuestion :=
  [ mkRawQuestion "Verbal" "Which word is a noun?" ["run"; "cat"] "B";
    mkRawQuestion "10" "What is 5 + 5?" ["10"; "11"] "A";
    mkRawQuestion "Logic" "Is every square a rectangle?" ["yes"; "no"] "A";
    mkRawQuestion "2" "What is 1 + 1?" ["2"; "3"] "A";
    mkRawQuestion "Verbal" "Which word is a verb?" ["run"; "cat"] "A" ].

(** The catalog that the loader makes of [mixed_names]. *)
Definition mixed_catalog : list TestCategory :=
  Eval vm_compute in
    match load mixed_names with
    | OK cats => cats
    | Throw _ => []
    end.

(** ** The screens: what [App] returns

    The part of the JSX that depends on the state: which screen, which
    controls, which texts and which of the alternative styles. *)

(** The look of an option button: not yet answered, the correct option, the
    user's wrong pick, any other option. *)
Inductive OptionClass : Type :=
| Idle | RightAnswer | WrongPick | Dimmed.

Record OptionButton : Type := mkOptionButton {
  option_text : string;
  option_class : OptionClass;
  option_disabled : bool
}.

Record CategoryCard : Type := mkCategoryCard {
  card_key : string;
  card_name : string;
  card_icon : Icon;
  card_count : nat
}.

Record TestingScreen : Type := mkTestingScreen {
  voice_label : string;
  heading : string;
  question_number : nat;
  question_total : nat;
  score_shown : nat;
  progress_width : jsreal;
  question_text : string;
  option_buttons : list OptionButton;
  feedback : option bool;
  next_label : option string
}.

Record ResultsScreen : Type := mkResultsScreen {
  result_heading : string;
  result_score : nat;
  result_percentage : jsreal;
  result_total : nat;
  result_message : string
}.

Inductive Screen : Type :=
| WelcomeScreen
| CategoryScreen (cards : list CategoryCard)
| TestingView (t : TestingScreen)
| ResultsView (r : ResultsScreen)
| Blank.

(** [l.map((x, index) => f x index)], numbering the first element [i]. *)
Fixpoint mapi_from {A B : Type} (f : A -> nat -> B) (l : list A) (i : nat) : list B :=
  match l with
  | [] => []
  | x :: r => f x i :: mapi_from f r (S i)
  end.

(** [userAnswers[currentQuestionIndex] === c]; an index without an answer
    reads [undefined], which is equal to no number. *)
Definition answer_is (s : State) (c : jsint) : bool :=
  match nth_error (userAnswers s) (currentQuestionIndex s) with
  | Some a => strict_eq a c
  | None => false
  end.

Definition optionButton (s : State) (q : Question) (option : string) (index : nat)
  : OptionButton :=
  {| option_text := option;
     option_class :=
       if negb (showExplanation s) then Idle
       else if strict_eq (Z.of_nat index) (correct q) then RightAnswer
       else if answer_is s (Int (Z.of_nat index)) then WrongPick
       else Dimmed;
     option_disabled := showExplanation s |}.

Definition categoryCard (category : TestCategory) : CategoryCard :=
  {| card_key := cat_id category;
     card_name := name category;
     card_icon := icon category;
     card_count := length (questions category) |}.

Definition testingScreen (s : State) (c : TestCategory) (q : Question) : TestingScreen :=
  let isCorrect := showExplanation s && answer_is s (correct q) in
  {| voice_label := if voiceOn s then "Voice On" else "Voice Off";
     heading := name c;
     question_number := currentQuestionIndex s + 1;
     question_total := length (questions c);
     score_shown := score s;
     progress_width :=
       js_mul (js_div (currentQuestionIndex s + 1) (length (questions c))) 100;
     question_text := question q;
     option_buttons := mapi_from (optionButton s q) (options q) 0;
     feedback := if showExplanation s then Some isCorrect else None;
     next_label :=
       if showExplanation s
       then Some (if Z.of_nat (currentQuestionIndex s)
                     <? Z.of_nat (length (questions c)) - 1
                  then "NEXT QUESTION" else "VIEW RESULTS")
       else None |}.

(** The value that [App] returns; [Blank] is [null]. *)
Definition render (s : State) : result Screen :=
  match currentState s with
  | welcome => OK WelcomeScreen
  | category_selection => OK (CategoryScreen (map categoryCard (testCategories s)))
  | testing =>
      match selectedCategory s with
      | Some c =>
          match nth_error (questions c) (currentQuestionIndex s) with
          | Some q => OK (TestingView (testingScreen s c q))
          | None => Throw TypeError
          end
      | None => OK Blank
      end
  | results =>
      match selectedCategory s with
      | Some c =>
          percentage <- accuracyPercent s ;;
          message <- getScoreMessage s ;;
          OK (ResultsView {| result_heading := name c;
                             result_score := score s;
                             result_percentage := percentage;
                             result_total := length (questions c);
                             result_message := message |})
      | None => OK Blank
      end
  end.

(** One click on an option and one on the Next button for every pick. *)
Definition answer_each (picks : list nat) : list Event :=
  flat_map (fun index => [ClickOption index; ClickNext]) picks.

(** A category whose only question has no options, and its testing screen. *)
Definition no_options : list RawQuestion :=
  [ mkRawQuestion "Verbal Ability" "Which word is missing?" [] "A" ].

Definition stalled_session : State :=
  Eval vm_compute in
    match run initial (open_first no_options) with
    | Some s => s
    | None => initial
    end.

(** The first question of [two_questions], answered wrongly. *)
Definition answered_wrong_session : State :=
  Eval vm_compute in
    match run initial (open_first two_questions ++ [ClickOption 2]) with
    | Some s => s
    | None => initial
    end.

(** The results of [two_questions] after one right and one wrong answer. *)
Definition finished_session : State :=
  Eval vm_compute in
    match run initial (open_first two_questions ++ answer_each [1; 3]%nat) with
    | Some s => s
    | None => initial
    end.

(** The testing screen of [answered_wrong_session]. *)
Definition answered_wrong_screen : TestingScreen :=
  Eval vm_compute in
    match render answered_wrong_session with
    | OK (TestingView t) => t
    | _ => mkTestingScreen "" "" 0 0 0 NotANumber "" [] None None
    end.

(** A character that [\s] does not match; a character that [toLowerCase]
    leaves as it is. *)
Definition no_space (c : ascii) : bool := negb (JsString.is_space c).

Definition no_upper (c : ascii) : bool := negb (JsString.is_upper c).

(** [w] occurs in the lower-cased [category]. *)
Definition has_keyword (category w : string) : Prop :=
  exists pre post,
    JsString.toLowerCase category = (pre ++ w ++ post)%string.

(** The control of [e] is on screen [v] and is not disabled.  The option
    button [index] is the [index]-th of the list, the category button [k]
    the [k]-th card; the Next button is there when it has a label. *)
Definition clickable (v : Screen) (e : Event) : bool :=
  match v, e with
  | WelcomeScreen, ClickBegin => true
  | CategoryScreen cards, ClickCategory k => (k <? length cards)%nat
  | TestingView t, ClickOption index =>
      match nth_error (option_buttons t) index with
      | Some b => negb (option_disabled b)
      | None => false
      end
  | TestingView t, ClickVoice => true
  | TestingView t, ClickNext =>
      match next_label t with Some _ => true | None => false end
  | ResultsView r, ClickNewAssessment => true
  | _, _ => false
  end.

(** One option of every question from [index] on: the first. *)
Definition first_options (qs : list Question) : list nat :=
  map (fun _ => 0%nat) qs.

(** [getScoreMessage] with its quotient, product and comparisons in
    binary64. *)
Definition getScoreMessage_binary64 (s : State) : result string :=
  match selectedCategory s with
  | None => Throw TypeError
  | Some c =>
      let percentage := double_percentage (score s) (length (questions c)) in
      if double_ge percentage 80 then OK "Excellent performance."
      else if double_ge percentage 60 then OK "Good performance."
      else if double_ge percentage 40 then OK "Average performance."
      else OK "Needs improvement."
  end.

(** The entry of the table of percentages for [right] of [total]: the
    rounded percentage [p] is an integer of 0..100 at most half a point
    from the exact one, 100 for all right and 0 for none; it reaches 80, 60
    and 40 from 79.5, 59.5 and 39.5 on; and the comparisons of the double
    with 80, 60 and 40 are those of the exact percentage. *)
Definition percent_ok (right total : nat) : bool :=
  let x := double_percentage right total in
  let K := Z.of_nat right in
  let N := Z.of_nat total in
  match Math_round x with
  | Real q =>
      let p := Qnum q in
      (Qden q =? 1)%positive &&
      (0 <=? p) && (p <=? 100) &&
      (2 * N * p - N <=? 200 * K) && (200 * K <=? 2 * N * p + N) &&
      implb (K =? N) (p =? 100) && implb (K =? 0) (p =? 0) &&
      Bool.eqb (80 <=? p) (159 * N <=? 200 * K) &&
      Bool.eqb (60 <=? p) (119 * N <=? 200 * K) &&
      Bool.eqb (40 <=? p) (79 * N <=? 200 * K) &&
      Bool.eqb (double_ge x 80) (80 * N <=? 100 * K) &&
      Bool.eqb (double_ge x 60) (60 * N <=? 100 * K) &&
      Bool.eqb (double_ge x 40) (40 * N <=? 100 * K)
  | _ => false
  end.

(** [f right total] holds for every [total] from 1 to [bound] and every
    [right] from 0 to [total]. *)
Definition table (f : nat -> nat -> bool) (bound : nat) : bool :=
  forallb (fun total => forallb (fun right => f right total) (seq 0 (S total)))
          (seq 1 bound).

(** * Properties *)

(** ** The object [grouped] *)

Module JsObjectFacts.
Import JsObject.

Lemma own_app (o o' : Obj) (k : string) :
  own (o ++ o') k = match own o k with Some v => Some v | None => own o' k end.
Proof.
  induction o as [|[k' v'] o IH]; simpl; [reflexivity|].
  destruct (String.eqb k' k); [reflexivity | exact IH].
Qed.

Lemma own_define_index (o : Obj) (n : N) (k : string) (v : list Question) :
  own o k = None -> own (define_index n k v o) k = Some v.
Proof.
  induction o as [|[k' v'] o IH]; simpl; intros Hnone.
  - now rewrite String.eqb_refl.
  - destruct (String.eqb k' k) eqn:E; [discriminate|].
    destruct (array_index k') as [n'|]; [destruct (n' <? n)%N|];
      simpl; rewrite ?E, ?String.eqb_refl; auto.
Qed.

Lemma own_define (o : Obj) (k : string) (v : list Question) :
  own o k = None -> own (define o k v) k = Some v.
Proof.
  intros Hnone. unfold define. destruct (array_index k).
  - now apply own_define_index.
  - rewrite own_app, Hnone. simpl. now rewrite String.eqb_refl.
Qed.

Lemma contents_define_index (o : Obj) (n : N) (k : string) :
  contents (define_index n k [] o) = contents o.
Proof.
  unfold contents.
  induction o as [|[k' v'] o IH]; simpl; [reflexivity|].
  destruct (array_index k') as [n'|]; [destruct (n' <? n)%N|]; simpl;
    congruence.
Qed.

Lemma contents_define (o : Obj) (k : string) :
  contents (define o k []) = contents o.
Proof.
  unfold define. destruct (array_index k).
  - apply contents_define_index.
  - unfold contents. rewrite map_app, concat_app. simpl. apply app_nil_r.
Qed.

Lemma contents_push_own (o : Obj) (k : string) (q : Question) :
  own o k <> None -> Permutation (contents (push_own o k q)) (q :: contents o).
Proof.
  unfold contents.
  induction o as [|[k' v'] o IH]; simpl; intros Hown; [congruence|].
  destruct (String.eqb k' k); simpl.
  - rewrite <- app_assoc. simpl. apply Permutation_sym, Permutation_middle.
  - eapply Permutation_trans; [apply Permutation_app_head, IH, Hown|].
    apply Permutation_sym, Permutation_middle.
Qed.

Lemma buckets_push_own (P : string -> list Question -> Prop) (o : Obj)
      (k : string) (q : Question) :
  buckets P o -> (forall v, P k v -> P k (v ++ [q])) ->
  buckets P (push_own o k q).
Proof.
  unfold buckets. intros Ho Hk.
  induction Ho as [|[k' v'] o Hhd Htl IH]; simpl; [constructor|].
  destruct (String.eqb k' k) eqn:E; constructor; simpl in *; auto.
  apply String.eqb_eq in E. subst k'. now apply Hk.
Qed.

Lemma buckets_push_new (P : string -> list Question -> Prop) (o : Obj)
      (k : string) (q : Question) :
  buckets P o -> own o k = None -> P k [q] ->
  buckets P (push_own (define o k []) k q).
Proof.
  unfold buckets, define. intros Ho Hnone Hk.
  destruct (array_index k) as [n|].
  - induction Ho as [|[k' v'] o Hhd Htl IH]; simpl in *.
    + rewrite String.eqb_refl. constructor; [exact Hk | constructor].
    + destruct (String.eqb k' k) eqn:E; [discriminate|].
      destruct (array_index k') as [n'|]; [destruct (n' <? n)%N|]; simpl;
        rewrite ?E, ?String.eqb_refl; repeat (constructor; auto).
  - induction Ho as [|[k' v'] o Hhd Htl IH]; simpl in *.
    + rewrite String.eqb_refl. constructor; [exact Hk | constructor].
    + destruct (String.eqb k' k) eqn:E; [discriminate|].
      constructor; auto.
Qed.

End JsObjectFacts.

(** ** The loader *)

Module LoaderFacts.
Import JsObject JsObjectFacts.

(** What one round of the [forEach] does, by the three cases of the read
    [grouped[q.category]]: an own bucket, an inherited member, nothing. *)
Lemma group_one_cases (o : Obj) (q : RawQuestion) (i : nat) :
  group_one o q i =
  match own o (raw_category q) with
  | Some _ => OK (push_own o (raw_category q) (formatted q i))
  | None =>
      if inherited (raw_category q) then Throw TypeError
      else OK (push_own (define o (raw_category q) []) (raw_category q)
                        (formatted q i))
  end.
Proof.
  unfold group_one, push, get.
  destruct (own o (raw_category q)) as [v|] eqn:Hown; simpl.
  - now rewrite Hown.
  - destruct (inherited (raw_category q)) eqn:Hinh; simpl.
    + now rewrite ?Hown, ?Hinh.
    + now rewrite (own_define o _ [] Hown).
Qed.

Lemma group_one_contents (o o' : Obj) (q : RawQuestion) (i : nat) :
  group_one o q i = OK o' ->
  Permutation (contents o') (formatted q i :: contents o).
Proof.
  rewrite group_one_cases.
  destruct (own o (raw_category q)) as [v|] eqn:Hown.
  - intros [= <-]. apply contents_push_own. congruence.
  - destruct (inherited (raw_category q)); [discriminate|].
    intros [= <-].
    rewrite <- (contents_define o (raw_category q)).
    apply contents_push_own. rewrite (own_define o _ [] Hown). discriminate.
Qed.

Lemma group_one_succeeds (o : Obj) (q : RawQuestion) (i : nat) :
  inherited (raw_category q) = false -> exists o', group_one o q i = OK o'.
Proof.
  intros Hinh. rewrite group_one_cases, Hinh.
  destruct (own o (raw_category q)); eauto.
Qed.

Lemma group_one_good (Q : string -> Question -> Prop) (o o' : Obj)
      (q : RawQuestion) (i : nat) :
  buckets (good Q) o -> Q (raw_category q) (formatted q i) ->
  group_one o q i = OK o' -> buckets (good Q) o'.
Proof.
  intros Ho Hq. rewrite group_one_cases.
  destruct (own o (raw_category q)) as [v|] eqn:Hown.
  - intros [= <-]. apply buckets_push_own; [exact Ho|].
    intros v' [Hne Hall]. split.
    + destruct v'; discriminate.
    + apply Forall_app. split; [exact Hall|]. now constructor.
  - destruct (inherited (raw_category q)); [discriminate|].
    intros [= <-]. apply buckets_push_new; [exact Ho | exact Hown |].
    split; [discriminate | now constructor].
Qed.

Lemma forEach_contents (data : list RawQuestion) :
  forall (i : nat) (o o' : Obj),
    forEach data i o = OK o' ->
    Permutation (contents o') (contents o ++ format_from data i).
Proof.
  induction data as [|q rest IH]; simpl; intros i o o' H.
  - injection H as <-. now rewrite app_nil_r.
  - destruct (group_one o q i) as [o1|] eqn:H1; simpl in H; [|discriminate].
    eapply Permutation_trans; [apply (IH _ _ _ H)|].
    eapply Permutation_trans;
      [apply Permutation_app_tail, (group_one_contents _ _ _ _ H1)|].
    simpl. apply Permutation_middle.
Qed.

Lemma forEach_succeeds (data : list RawQuestion) :
  plain_categories data ->
  forall (i : nat) (o : Obj), exists o', forEach data i o = OK o'.
Proof.
  induction 1 as [|q rest Hq Hrest IH]; simpl; intros i o; [eauto|].
  destruct (group_one_succeeds o q i Hq) as [o1 ->]. simpl. apply IH.
Qed.

Lemma forEach_good (Q : string -> Question -> Prop) (data : list RawQuestion) :
  forall (i : nat) (o o' : Obj),
    buckets (good Q) o ->
    (forall j r, nth_error data j = Some r ->
                 Q (raw_category r) (formatted r (i + j))) ->
    forEach data i o = OK o' -> buckets (good Q) o'.
Proof.
  induction data as [|q rest IH]; simpl; intros i o o' Ho HQ H.
  - now injection H as <-.
  - destruct (group_one o q i) as [o1|] eqn:H1; simpl in H; [|discriminate].
    apply (IH (S i) o1 o'); [| |exact H].
    + apply (group_one_good Q o o1 q i Ho); [|exact H1].
      specialize (HQ 0%nat q eq_refl). now rewrite Nat.add_0_r in HQ.
    + intros j r Hj. specialize (HQ (S j) r Hj).
      now rewrite Nat.add_succ_r in HQ.
Qed.

(** A record filed under an inherited name makes the loop throw: no own
    key is ever inherited, so the read finds the inherited member. *)
Lemma own_In (o : Obj) (k : string) (v : list Question) :
  own o k = Some v -> In (k, v) o.
Proof.
  induction o as [|[k' v'] o IH]; simpl; [discriminate|].
  destruct (String.eqb k' k) eqn:E.
  - apply String.eqb_eq in E. intros [= ->]. left. now subst.
  - intros H. right. now apply IH.
Qed.

Lemma forEach_throws (data : list RawQuestion) :
  Exists (fun q => inherited (raw_category q) = true) data ->
  forall (i : nat) (o : Obj),
    buckets (fun k _ => inherited k = false) o ->
    forEach data i o = Throw TypeError.
Proof.
  induction data as [|q rest IH]; intros Hex i o Ho; [inversion Hex|].
  simpl. rewrite group_one_cases.
  destruct (inherited (raw_category q)) eqn:Hinh.
  - destruct (own o (raw_category q)) as [v|] eqn:Hown; [|reflexivity].
    apply own_In in Hown. unfold buckets in Ho.
    rewrite Forall_forall in Ho. specialize (Ho _ Hown). simpl in Ho.
    congruence.
  - assert (Hrest : Exists (fun q => inherited (raw_category q) = true) rest).
    { inversion Hex; subst; [congruence | assumption]. }
    destruct (own o (raw_category q)) as [v|] eqn:Hown; simpl.
    + apply IH; [exact Hrest|]. apply buckets_push_own; auto.
    + apply IH; [exact Hrest|]. apply buckets_push_new; auto.
Qed.

End LoaderFacts.

(** The catalog holds the questions of the records, each once. *)
Lemma load_partition (data : list RawQuestion) (cats : list TestCategory) :
  load data = OK cats ->
  Permutation (all_questions cats) (format_from data 0).
Proof.
  unfold load. destruct (forEach data 0 []) as [o|] eqn:H; simpl; [|discriminate].
  intros [= <-]. apply LoaderFacts.forEach_contents in H. simpl in H.
  unfold all_questions, JsObject.entries. rewrite map_map.
  replace (map (fun x => questions (to_category x)) o) with (map snd o).
  - exact H.
  - apply map_ext. now intros [k v].
Qed.

(** The load succeeds when no category has an inherited name ... *)
Lemma load_succeeds (data : list RawQuestion) :
  plain_categories data -> exists cats, load data = OK cats.
Proof.
  intros H. unfold load.
  destruct (LoaderFacts.forEach_succeeds data H 0%nat []) as [o ->]. simpl. eauto.
Qed.

(** ... and throws when one has. *)
Lemma load_throws (data : list RawQuestion) :
  ~ plain_categories data -> load data = Throw TypeError.
Proof.
  intros H. unfold load. rewrite LoaderFacts.forEach_throws; [reflexivity| |constructor].
  unfold plain_categories in H. apply Exists_Forall_neg in H.
  - eapply Exists_impl; [|exact H]. intros q Hq. simpl in Hq.
    now destruct (JsObject.inherited (raw_category q)).
  - intros q. destruct (JsObject.inherited (raw_category q)); [right|left]; congruence.
Qed.

Lemma load_categories (data : list RawQuestion) (cats : list TestCategory) :
  load data = OK cats ->
  Forall (fun c => questions c <> [] /\
                   cat_id c = slug (name c) /\
                   Forall (from_record data (name c)) (questions c)) cats.
Proof.
  unfold load. destruct (forEach data 0 []) as [o|] eqn:H; simpl; [|discriminate].
  intros [= <-].
  apply (LoaderFacts.forEach_good (from_record data)) in H.
  - unfold JsObject.entries, JsObject.buckets in *. apply Forall_map.
    eapply Forall_impl; [|exact H]. intros [k v] [Hne Hall]. simpl in *. auto.
  - constructor.
  - intros j r Hj. exists j, r. auto.
Qed.

(** ** The flow: an invariant of the reachable states *)

Lemma count_correct_le (qs : list Question) :
  forall answers, (count_correct qs answers <= length answers)%nat.
Proof.
  induction qs as [|q qs IH]; intros [|a answers]; simpl; try lia.
  specialize (IH answers). destruct (strict_eq a (correct q)); lia.
Qed.

Lemma count_correct_snoc (qs : list Question) :
  forall answers q a,
    nth_error qs (length answers) = Some q ->
    count_correct qs (answers ++ [a]) =
    (count_correct qs answers + if strict_eq a (correct q) then 1 else 0)%nat.
Proof.
  induction qs as [|q0 qs IH]; intros [|a0 answers] q a Hq; simpl in *;
    try discriminate.
  - injection Hq as ->. destruct qs; simpl; lia.
  - rewrite (IH answers q a Hq). lia.
Qed.

Lemma initial_inv : session_inv initial.
Proof.
  constructor; simpl; try discriminate; auto.
Qed.

Lemma shownQuestion_Some (s : State) (q : Question) :
  shownQuestion s = Some q ->
  currentState s = testing /\
  exists c, selectedCategory s = Some c /\
            nth_error (questions c) (currentQuestionIndex s) = Some q.
Proof.
  unfold shownQuestion.
  destruct (currentState s); try discriminate.
  destruct (selectedCategory s) as [c|]; try discriminate.
  intros H. split; [reflexivity|]. now exists c.
Qed.

Lemma handleAnswer_fresh (s : State) (c : TestCategory) (q : Question) (a : Z) :
  selectedCategory s = Some c ->
  nth_error (questions c) (currentQuestionIndex s) = Some q ->
  showExplanation s = false ->
  handleAnswer a s =
  OK (mkState (currentState s) (selectedCategory s) (currentQuestionIndex s)
              (userAnswers s ++ [a]) true
              (score s + if strict_eq a (correct q) then 1 else 0)%nat
              (voiceOn s) (testCategories s)).
Proof.
  intros Hc Hq Hshow. unfold handleAnswer, currentQuestion.
  rewrite Hshow, Hc. simpl. rewrite Hq.
  destruct (strict_eq a (correct q)); unfold setShowExplanation, setScore,
    setUserAnswers; simpl; rewrite ?Hc, ?Nat.add_0_r; reflexivity.
Qed.

Lemma handleNext_cases (s : State) (c : TestCategory) :
  selectedCategory s = Some c ->
  (currentQuestionIndex s < length (questions c))%nat ->
  handleNext s =
  OK (if (S (currentQuestionIndex s) =? length (questions c))%nat
      then setCurrentState results s
      else setShowExplanation false
             (setCurrentQuestionIndex (currentQuestionIndex s + 1) s)).
Proof.
  intros Hc Hlt. unfold handleNext. rewrite Hc.
  destruct (Nat.eqb_spec (S (currentQuestionIndex s)) (length (questions c)))
    as [E|E].
  - destruct (Z.ltb_spec (Z.of_nat (currentQuestionIndex s))
                         (Z.of_nat (length (questions c)) - 1)); [lia|reflexivity].
  - destruct (Z.ltb_spec (Z.of_nat (currentQuestionIndex s))
                         (Z.of_nat (length (questions c)) - 1)); [reflexivity|lia].
Qed.

Lemma step_inv (s s' : State) (e : Event) :
  session_inv s -> rendered s e = true -> step s e = OK s' -> session_inv s'.
Proof.
  intros [Hcat Hnone Hscr Hidx Hans Hsc] Hr Hs.
  destruct e as [data| |k|index| | |]; simpl in Hr, Hs.
  - (* the fetch resolves *)
    destruct (load data) as [cats|] eqn:Hload; injection Hs as <-.
    + constructor; simpl; auto.
      eapply Forall_impl; [|exact (load_categories _ _ Hload)].
      now intros c [H _].
    + now constructor.
  - (* BEGIN ASSESSMENT *)
    injection Hs as <-.
    destruct (currentState s) eqn:Hst; try discriminate.
    destruct (selectedCategory s) as [c|] eqn:Hc.
    + destruct (Hscr c eq_refl) as [H|[H _]]; discriminate.
    + constructor; simpl; rewrite ?Hc; auto; discriminate.
  - (* a category button *)
    destruct (currentState s) eqn:Hst; try discriminate.
    apply Nat.ltb_lt in Hr.
    destruct (nth_error (testCategories s) k) as [c|] eqn:Hk.
    2:{ apply nth_error_None in Hk. lia. }
    injection Hs as <-.
    assert (Hne : questions c <> []).
    { rewrite Forall_forall in Hcat. apply Hcat. eapply nth_error_In, Hk. }
    constructor; simpl; auto; try discriminate; intros c' [= <-].
    + destruct (questions c); [congruence | simpl; lia].
    + destruct (questions c); reflexivity.
  - (* an option button *)
    destruct (shownQuestion s) as [q|] eqn:Hq; [|discriminate].
    apply andb_prop in Hr. destruct Hr as [_ Hshow].
    apply negb_true_iff in Hshow.
    apply shownQuestion_Some in Hq. destruct Hq as (Hst & c & Hc & Hq).
    rewrite (handleAnswer_fresh s c q _ Hc Hq Hshow) in Hs. injection Hs as <-.
    specialize (Hidx c Hc). specialize (Hans c Hc). specialize (Hsc c Hc).
    rewrite Hshow in Hans.
    constructor; simpl; auto; rewrite Hc; try discriminate; intros c' [= <-];
      auto.
    + rewrite length_app. simpl. lia.
    + rewrite (count_correct_snoc _ _ q); [lia|].
      now replace (length (userAnswers s)) with (currentQuestionIndex s) by lia.
  - (* the voice toggle *)
    injection Hs as <-. now constructor.
  - (* NEXT QUESTION / VIEW RESULTS *)
    destruct (shownQuestion s) as [q|] eqn:Hq; [|discriminate].
    apply shownQuestion_Some in Hq. destruct Hq as (Hst & c & Hc & Hq).
    specialize (Hidx c Hc). specialize (Hans c Hc). specialize (Hsc c Hc).
    rewrite (handleNext_cases s c Hc Hidx) in Hs. rewrite Hr in Hans.
    destruct (S (currentQuestionIndex s) =? length (questions c))%nat eqn:E;
      injection Hs as <-.
    + constructor; simpl; auto; rewrite Hc; try discriminate; intros c' [= <-];
        auto; rewrite Hr; auto.
    + apply Nat.eqb_neq in E.
      constructor; simpl; auto; rewrite Hc; try discriminate; intros c' [= <-];
        auto; lia.
  - (* NEW ASSESSMENT *)
    injection Hs as <-. constructor; simpl; auto; discriminate.
Qed.

Lemma reachable_inv (s : State) : reachable s -> session_inv s.
Proof.
  induction 1 as [|s s' e _ IH Hr Hs]; [exact initial_inv|].
  exact (step_inv s s' e IH Hr Hs).
Qed.

Lemma run_reachable (es : list Event) :
  forall s s', reachable s -> run s es = Some s' -> reachable s'.
Proof.
  induction es as [|e es IH]; simpl; intros s s' Hs H.
  - now injection H as <-.
  - destruct (rendered s e) eqn:Hr; [|discriminate].
    destruct (step s e) as [s1|] eqn:H1; [|discriminate].
    apply (IH s1 s'); [|exact H]. exact (reachable_step s s1 e Hs Hr H1).
Qed.

(** ** The flow: handlers *)

(** C7: selecting a category always starts a fresh session.  Whatever the
    state before, after [handleCategorySelect c] the screen is the testing
    screen of [c], at question 0, with no answers, score 0 and no feedback
    showing; only the voice setting and the catalog are kept. *)
Theorem handleCategorySelect_fresh (s : State) (c : TestCategory) :
  handleCategorySelect c s =
  {| currentState := testing;
     selectedCategory := Some c;
     currentQuestionIndex := 0;
     userAnswers := [];
     showExplanation := false;
     score := 0;
     voiceOn := voiceOn s;
     testCategories := testCategories s |}.
Proof.
  reflexivity.
Qed.

(** C4: submitting is idempotent per question.  While the feedback of the
    current question is showing, [handleAnswer] with any index returns the
    state unchanged; hence after any accepted submission a second one, with
    any index, changes neither the answers nor the score nor anything else. *)
Theorem handleAnswer_idempotent (s : State) (a : Z) :
  (showExplanation s = true -> handleAnswer a s = OK s) /\
  (forall b s1, handleAnswer b s = OK s1 -> handleAnswer a s1 = OK s1).
Proof.
  assert (Hguard : forall t, showExplanation t = true -> handleAnswer a t = OK t).
  { intros t Ht. unfold handleAnswer. now rewrite Ht. }
  split; [apply Hguard|].
  intros b s1 H. apply Hguard. unfold handleAnswer in H.
  destruct (showExplanation s) eqn:Hshow.
  - now injection H as <-.
  - destruct (currentQuestion s) as [[q|]|]; simpl in H; try discriminate.
    now injection H as <-.
Qed.

Lemma handleAnswer_idempotent_witness :
  exists s1,
    handleAnswer 1 unanswered_session = OK s1 /\
    score s1 = 1%nat /\
    handleAnswer 0 s1 = OK s1 /\
    handleAnswer 3 s1 = OK s1.
Proof.
  eexists. split; [reflexivity|]. split; [reflexivity|]. split.
  - apply (proj1 (handleAnswer_idempotent _ 0)). reflexivity.
  - apply (proj2 (handleAnswer_idempotent unanswered_session 3) 1). reflexivity.
Defined.

(** C10: a question whose correct index is outside its option range can
    never be scored as correct.  Submitting any index of the option range
    records the answer and leaves the score as it was. *)
Theorem handleAnswer_malformed (s : State) (c : TestCategory) (q : Question) (a : Z) :
  selectedCategory s = Some c ->
  nth_error (questions c) (currentQuestionIndex s) = Some q ->
  showExplanation s = false ->
  ~ valid_index (correct q) (length (options q)) ->
  0 <= a < Z.of_nat (length (options q)) ->
  exists s',
    handleAnswer a s = OK s' /\
    userAnswers s' = userAnswers s ++ [a] /\
    score s' = score s /\
    showExplanation s' = true.
Proof.
  intros Hc Hq Hshow Hbad Ha.
  rewrite (handleAnswer_fresh s c q a Hc Hq Hshow).
  eexists. split; [reflexivity|]. simpl. repeat split.
  destruct (correct q) as [z|]; simpl in *; [|lia].
  destruct (Z.eqb_spec a z); [|lia]. subst z. contradiction.
Qed.

Lemma handleAnswer_malformed_witness :
  run initial (open_first letter_out_of_range) = Some malformed_session /\
  exists s',
    handleAnswer 2 malformed_session = OK s' /\
    userAnswers s' = userAnswers malformed_session ++ [2] /\
    score s' = score malformed_session /\
    showExplanation s' = true.
Proof.
  split; [reflexivity|].
  eapply (handleAnswer_malformed malformed_session _ _ 2);
    [reflexivity | reflexivity | reflexivity | simpl; lia | simpl; lia].
Defined.

(** C2, as it is stated, fails: on the first question of a session, not yet
    answered, [handleNext] moves to the second question. *)
Lemma unanswered_advance_moves :
  run initial (open_first two_questions) = Some unanswered_session /\
  currentState unanswered_session = testing /\
  showExplanation unanswered_session = false /\
  currentQuestionIndex unanswered_session = 0%nat /\
  exists s',
    handleNext unanswered_session = OK s' /\ currentQuestionIndex s' = 1%nat.
Proof.
  repeat (split; [reflexivity|]). eexists. split; reflexivity.
Qed.

(** C2, amended: while the current question is unanswered the testing screen
    has no control that advances, so no run of the component calls
    [handleNext] there.  The handler itself has no guard: called in such a
    state it does not throw and keeps the answers, the score and the
    category, and it moves on, to the results screen from the last question
    and to the next question otherwise. *)
Theorem handleNext_unanswered (s : State) :
  reachable s -> currentState s = testing -> showExplanation s = false ->
  rendered s ClickNext = false /\
  exists c s',
    selectedCategory s = Some c /\
    handleNext s = OK s' /\
    userAnswers s' = userAnswers s /\
    score s' = score s /\
    selectedCategory s' = selectedCategory s /\
    if (S (currentQuestionIndex s) =? length (questions c))%nat
    then currentState s' = results /\
         currentQuestionIndex s' = currentQuestionIndex s
    else currentState s' = testing /\
         currentQuestionIndex s' = S (currentQuestionIndex s).
Proof.
  intros Hreach Hst Hshow. apply reachable_inv in Hreach.
  split.
  - simpl. now destruct (shownQuestion s).
  - destruct (selectedCategory s) as [c|] eqn:Hc.
    + exists c. eexists. split; [reflexivity|].
      split; [apply (handleNext_cases s c Hc), (inv_index s Hreach c Hc)|].
      destruct (S (currentQuestionIndex s) =? length (questions c))%nat; simpl;
        rewrite ?Hc, ?Hst, ?Nat.add_1_r; auto.
    + destruct (inv_no_session s Hreach Hc); congruence.
Qed.

Lemma handleNext_unanswered_witness :
  rendered unanswered_session ClickNext = false /\
  exists c s',
    selectedCategory unanswered_session = Some c /\
    handleNext unanswered_session = OK s' /\
    userAnswers s' = userAnswers unanswered_session /\
    score s' = score unanswered_session /\
    selectedCategory s' = selectedCategory unanswered_session /\
    if (S (currentQuestionIndex unanswered_session) =? length (questions c))%nat
    then currentState s' = results /\
         currentQuestionIndex s' = currentQuestionIndex unanswered_session
    else currentState s' = testing /\
         currentQuestionIndex s' = S (currentQuestionIndex unanswered_session).
Proof.
  apply (handleNext_unanswered unanswered_session); [|reflexivity|reflexivity].
  apply (run_reachable (open_first two_questions) initial);
    [exact reachable_initial | reflexivity].
Defined.

Lemma strict_eq_spec (a : Z) (c : jsint) :
  strict_eq a c = true <-> c = Int a.
Proof.
  destruct c as [z|]; simpl.
  - rewrite Z.eqb_eq. split; congruence.
  - split; discriminate.
Qed.

Lemma count_correct_equal (qs : list Question) :
  forall answers, count_correct qs answers = count_equal qs answers.
Proof.
  induction qs as [|q qs IH]; intros [|a answers]; simpl; try reflexivity.
  rewrite IH. pose proof (strict_eq_spec a (correct q)) as H.
  destruct (jsint_eq_dec (correct q) (Int a)) as [E|E];
    destruct (strict_eq a (correct q)); try reflexivity.
  - apply H in E. discriminate.
  - exfalso. apply E, H. reflexivity.
Qed.

(** C5: in every reachable state with a session, the score is at most the
    number of answers, which is at most the number of questions of the
    category, and the score is the number of positions where the correct
    index of the question is the answer at that position.  A submission that
    the screen accepts (no feedback showing) appends exactly its index to the
    answers; it adds one to the score when the index is the correct index of
    the current question and leaves the score as it is when it is not. *)
Theorem score_invariant (s : State) (c : TestCategory) :
  reachable s -> selectedCategory s = Some c ->
  (score s <= length (userAnswers s) <= length (questions c))%nat /\
  score s = count_equal (questions c) (userAnswers s) /\
  forall a, showExplanation s = false ->
    exists q s',
      nth_error (questions c) (currentQuestionIndex s) = Some q /\
      handleAnswer a s = OK s' /\
      userAnswers s' = userAnswers s ++ [a] /\
      (correct q = Int a -> score s' = S (score s)) /\
      (correct q <> Int a -> score s' = score s).
Proof.
  intros Hreach Hc. apply reachable_inv in Hreach.
  pose proof (inv_index s Hreach c Hc) as Hidx.
  pose proof (inv_answers s Hreach c Hc) as Hans.
  pose proof (inv_score s Hreach c Hc) as Hsc.
  split; [|split].
  - split.
    + rewrite Hsc. apply count_correct_le.
    + destruct (showExplanation s); lia.
  - rewrite Hsc. apply count_correct_equal.
  - intros a Hshow.
    destruct (nth_error (questions c) (currentQuestionIndex s)) as [q|] eqn:Hq.
    2:{ apply nth_error_None in Hq. lia. }
    exists q. eexists. split; [reflexivity|].
    split; [apply (handleAnswer_fresh s c q a Hc Hq Hshow)|].
    split; [reflexivity|]. cbn [score].
    pose proof (strict_eq_spec a (correct q)) as H.
    destruct (strict_eq a (correct q)).
    + split; [intros _; lia|]. intros Hne. exfalso. apply Hne, H. reflexivity.
    + split; [|intros _; lia]. intros E. apply H in E. discriminate.
Qed.

(** C6: on an answered question of a reachable testing session, [handleNext]
    shows the results when the current question is the last one and
    otherwise moves to the next question and hides the feedback; and the
    current index is below the number of questions in every reachable state
    with a session. *)
Theorem handleNext_answered (s : State) (c : TestCategory) :
  reachable s -> selectedCategory s = Some c ->
  (currentQuestionIndex s < length (questions c))%nat /\
  (currentState s = testing -> showExplanation s = true ->
   handleNext s =
   OK (if (currentQuestionIndex s =? length (questions c) - 1)%nat
       then setCurrentState results s
       else setShowExplanation false
              (setCurrentQuestionIndex (currentQuestionIndex s + 1) s))).
Proof.
  intros Hreach Hc. apply reachable_inv in Hreach.
  pose proof (inv_index s Hreach c Hc) as Hidx.
  split; [exact Hidx|]. intros _ _.
  rewrite (handleNext_cases s c Hc Hidx).
  destruct (Nat.eqb_spec (S (currentQuestionIndex s)) (length (questions c)));
    destruct (Nat.eqb_spec (currentQuestionIndex s) (length (questions c) - 1));
    try reflexivity; lia.
Qed.

Lemma answered_last_reachable : reachable answered_last_session.
Proof.
  apply (run_reachable (open_first two_questions ++
                        [ClickOption 1; ClickNext; ClickOption 0]) initial);
    [exact reachable_initial | reflexivity].
Qed.

Lemma unanswered_reachable : reachable unanswered_session.
Proof.
  apply (run_reachable (open_first two_questions) initial);
    [exact reachable_initial | reflexivity].
Qed.

Lemma score_invariant_witness :
  score answered_last_session = 2%nat /\
  exists c,
    selectedCategory answered_last_session = Some c /\
    score answered_last_session =
    count_equal (questions c) (userAnswers answered_last_session) /\
    exists s1 s2,
      handleAnswer 1 unanswered_session = OK s1 /\
      userAnswers s1 = [1] /\ score s1 = 1%nat /\
      handleAnswer 3 unanswered_session = OK s2 /\
      userAnswers s2 = [3] /\ score s2 = 0%nat.
Proof.
  split; [reflexivity|]. eexists. split; [reflexivity|].
  split.
  - apply (score_invariant answered_last_session _ answered_last_reachable eq_refl).
  - pose proof (score_invariant unanswered_session _ unanswered_reachable eq_refl)
      as (_ & _ & H).
    destruct (H 1 eq_refl) as (q1 & s1 & Hq1 & Hs1 & Ha1 & Hyes1 & _).
    destruct (H 3 eq_refl) as (q2 & s2 & Hq2 & Hs2 & Ha2 & _ & Hno2).
    exists s1, s2. simpl in Hq1, Hq2.
    injection Hq1 as <-. injection Hq2 as <-.
    split; [exact Hs1|]. split; [exact Ha1|]. split; [now apply Hyes1|].
    split; [exact Hs2|]. split; [exact Ha2|]. apply Hno2. discriminate.
Defined.

Lemma handleNext_answered_witness :
  exists c,
    selectedCategory answered_last_session = Some c /\
    (currentQuestionIndex answered_last_session < length (questions c))%nat /\
    handleNext answered_last_session =
    OK (setCurrentState results answered_last_session).
Proof.
  eexists. split; [reflexivity|].
  pose proof (handleNext_answered answered_last_session _
                answered_last_reachable eq_refl) as H.
  split; [exact (proj1 H) | exact (proj2 H eq_refl eq_refl)].
Defined.

(** ** Scoring and summary *)

Lemma percentage_ge (a b : nat) (k : Z) :
  (0 < b)%nat ->
  js_ge (js_mul (js_div a b) 100) k =
  (k * Z.of_nat b <=? 100 * Z.of_nat a).
Proof.
  intros Hb. destruct b as [|b]; [lia|].
  assert (E : Z.pos (Pos.of_nat (S b)) = Z.of_nat (S b)).
  { now rewrite <- Pos.of_nat_succ, Zpos_P_of_succ_nat, Nat2Z.inj_succ. }
  unfold js_div, js_mul, js_ge, Qle_bool, Qmult, inject_Z. cbn [Qnum Qden].
  rewrite Pos.mul_1_r, Z.mul_1_r, E. f_equal. lia.
Qed.

(** C1, as it is stated, fails: with 35 of 44 the percentage is 79.54...,
    the results screen shows 80 and the thresholds applied to 80 give
    "Excellent performance.", but the message is "Good performance.". *)
Lemma message_not_from_rounded :
  run initial (open_first forty_four ++ answer_all 0 35 ++ answer_all 1 9)
  = Some near_miss_session /\
  currentState near_miss_session = results /\
  score near_miss_session = 35%nat /\
  accuracyPercent near_miss_session = OK (Real (inject_Z 80)) /\
  message_for (Real (inject_Z 80)) = "Excellent performance." /\
  getScoreMessage near_miss_session = OK "Good performance.".
Proof.
  repeat split; vm_compute; reflexivity.
Qed.

(** C1, amended: on the results screen the message is chosen by the
    thresholds 80, 60 and 40 on the percentage as computed, not rounded:
    [score / total * 100 >= t] is [t * total <= 100 * score]. *)
Theorem getScoreMessage_thresholds (s : State) :
  reachable s -> currentState s = results ->
  exists c,
    selectedCategory s = Some c /\
    let total := Z.of_nat (length (questions c)) in
    let right := Z.of_nat (score s) in
    getScoreMessage s =
    OK (if 80 * total <=? 100 * right then "Excellent performance."
        else if 60 * total <=? 100 * right then "Good performance."
        else if 40 * total <=? 100 * right then "Average performance."
        else "Needs improvement.").
Proof.
  intros Hreach Hst. apply reachable_inv in Hreach.
  destruct (selectedCategory s) as [c|] eqn:Hc.
  - exists c. split; [reflexivity|].
    assert (Hpos : (0 < length (questions c))%nat).
    { pose proof (inv_index s Hreach c Hc). lia. }
    unfold getScoreMessage. rewrite Hc. cbv zeta.
    rewrite !(fun k => percentage_ge (score s) _ k Hpos).
    repeat match goal with
           | |- context [?a <=? ?b] => destruct (a <=? b)
           end; reflexivity.
  - destruct (inv_no_session s Hreach Hc); congruence.
Qed.

Lemma getScoreMessage_thresholds_witness :
  exists c,
    selectedCategory near_miss_session = Some c /\
    getScoreMessage near_miss_session = OK "Good performance.".
Proof.
  destruct (getScoreMessage_thresholds near_miss_session) as (c & Hc & Hmsg).
  - apply (run_reachable
             (open_first forty_four ++ answer_all 0 35 ++ answer_all 1 9) initial);
      [exact reachable_initial | vm_compute; reflexivity].
  - reflexivity.
  - exists c. split; [exact Hc|]. rewrite Hmsg.
    injection Hc as <-. reflexivity.
Defined.

(** ** The loader: correct index, grouping, slug *)


Lemma format_from_ids (data : list RawQuestion) :
  forall i, map id (format_from data i) = seq (i + 1) (length data).
Proof.
  induction data as [|q rest IH]; simpl; intros i; [reflexivity|].
  f_equal. now rewrite IH.
Qed.

(** When the load succeeds, the sizes of the categories add up to the number
    of records and the ids are 1, 2, ... in input order, each used once. *)
Lemma load_count (data : list RawQuestion) (cats : list TestCategory) :
  load data = OK cats ->
  list_sum (map (fun c => length (questions c)) cats) = length data /\
  Permutation (map id (all_questions cats)) (seq 1 (length data)).
Proof.
  intros H. apply load_partition in H.
  pose proof (format_from_ids data 0) as Hids. simpl in Hids. split.
  - apply Permutation_length in H. unfold all_questions in H.
    rewrite length_concat, map_map in H. rewrite H.
    rewrite <- (length_map id), Hids. apply length_seq.
  - rewrite <- Hids. now apply Permutation_map.
Qed.

(** C8 fails on a category that bears the name of a member of
    [Object.prototype]: the read [grouped["constructor"]] finds the inherited
    member, no bucket is made, [push] is not a function and the callback
    throws.  The error is caught and logged, the catalog stays empty: one
    record in, no question out. *)
Theorem load_inherited_category :
  load inherited_category = Throw TypeError /\
  step initial (Fetched inherited_category) = OK initial /\
  length inherited_category = 1%nat /\
  list_sum (map (fun c => length (questions c)) (testCategories initial)) = 0%nat.
Proof.
  repeat split.
Qed.

(** ** The slug *)

Module SlugFacts.
Import JsString.
Local Open Scope string_scope.








Lemma replace_runs_no_space (s : string) :
  all_chars (fun c => negb (is_space c)) s = true ->
  forall f, replace_runs f s = s.
Proof.
  induction s as [|c s IH]; simpl; intros H f; [reflexivity|].
  apply andb_prop in H. destruct H as [Hc Hs].
  apply negb_true_iff in Hc. rewrite Hc. now rewrite IH.
Qed.



End SlugFacts.



(** * Further properties *)

(** ** The catalog: names, order and content of the categories *)

Module CatalogFacts.
Import JsObject.

Lemma own_None_keys (o : Obj) (k : string) :
  own o k = None <-> ~ In k (keys o).
Proof.
  unfold keys. induction o as [|[k' v'] o IH]; simpl.
  - split; auto.
  - destruct (String.eqb_spec k' k) as [->|Hne].
    + split; [discriminate | intros H; exfalso; apply H; now left].
    + rewrite IH. split.
      * intros H [E|E]; [congruence | auto].
      * intros H E. apply H. now right.
Qed.

Lemma own_of_entry (o : Obj) (k : string) (v : list Question) :
  NoDup (keys o) -> In (k, v) o -> own o k = Some v.
Proof.
  unfold keys. induction o as [|[k' v'] o IH]; simpl; intros Hnd Hin; [contradiction|].
  inversion Hnd as [|? ? Hnotin Hnd']; subst.
  destruct Hin as [[= -> ->]|Hin].
  - now rewrite String.eqb_refl.
  - destruct (String.eqb_spec k' k) as [->|Hne].
    + exfalso. apply Hnotin. change k with (fst (k, v)). now apply in_map.
    + now apply IH.
Qed.

Lemma own_push_own_same (o : Obj) (k : string) (q : Question) (v : list Question) :
  own o k = Some v -> own (push_own o k q) k = Some (v ++ [q]).
Proof.
  induction o as [|[k' v'] o IH]; simpl; [discriminate|].
  destruct (String.eqb k' k) eqn:E; simpl; rewrite E; [now intros [= ->] | exact IH].
Qed.

Lemma own_push_own_other (o : Obj) (k k' : string) (q : Question) :
  k' <> k -> own (push_own o k q) k' = own o k'.
Proof.
  intros Hne. induction o as [|[k0 v0] o IH]; simpl; [reflexivity|].
  destruct (String.eqb_spec k0 k) as [->|H0]; simpl.
  - destruct (String.eqb_spec k k'); [congruence | reflexivity].
  - destruct (String.eqb k0 k'); [reflexivity | exact IH].
Qed.

Lemma own_define_other (o : Obj) (k k' : string) (v : list Question) :
  k' <> k -> own (define o k v) k' = own o k'.
Proof.
  intros Hne. unfold define. destruct (array_index k) as [n|].
  - induction o as [|[k0 v0] o IH]; simpl.
    + destruct (String.eqb_spec k k'); [congruence | reflexivity].
    + destruct (array_index k0) as [n0|]; [destruct (n0 <? n)%N|]; simpl;
        destruct (String.eqb_spec k k'); try congruence;
        destruct (String.eqb k0 k'); auto.
  - rewrite JsObjectFacts.own_app. destruct (own o k'); [reflexivity|].
    simpl. destruct (String.eqb_spec k k'); [congruence | reflexivity].
Qed.

Lemma keys_push_own (o : Obj) (k : string) (q : Question) :
  keys (push_own o k q) = keys o.
Proof.
  unfold keys. induction o as [|[k' v'] o IH]; simpl; [reflexivity|].
  destruct (String.eqb k' k); simpl; congruence.
Qed.

Lemma keys_define (o : Obj) (k : string) (v : list Question) :
  keys (define o k v) = insert_key k (keys o).
Proof.
  unfold keys, define, insert_key. destruct (array_index k) as [n|].
  - induction o as [|[k' v'] o IH]; simpl; [reflexivity|].
    destruct (array_index k') as [n'|]; [destruct (n' <? n)%N|]; simpl;
      congruence.
  - rewrite map_app. reflexivity.
Qed.

Lemma insert_key_perm (k : string) (ks : list string) :
  Permutation (insert_key k ks) (k :: ks).
Proof.
  unfold insert_key. destruct (array_index k) as [n|].
  - induction ks as [|k' r IH]; simpl; [reflexivity|].
    destruct (array_index k') as [n'|]; [destruct (n' <? n)%N|];
      try reflexivity.
    eapply Permutation_trans; [apply perm_skip, IH | apply perm_swap].
  - apply Permutation_sym, Permutation_cons_append.
Qed.

(** The keys after one round of the loop. *)
Lemma group_one_keys (o o1 : Obj) (r : RawQuestion) (i : nat) :
  group_one o r i = OK o1 ->
  keys o1 = if mem (raw_category r) (keys o) then keys o
            else insert_key (raw_category r) (keys o).
Proof.
  rewrite LoaderFacts.group_one_cases.
  destruct (own o (raw_category r)) as [v|] eqn:Hown.
  - intros [= <-]. rewrite keys_push_own.
    destruct (mem (raw_category r) (keys o)) eqn:Hmem; [reflexivity|].
    exfalso. assert (Hn : own o (raw_category r) <> None) by congruence.
    apply Hn, own_None_keys. intros Hin.
    unfold mem in Hmem. apply not_true_iff_false in Hmem. apply Hmem.
    apply existsb_exists. exists (raw_category r). split; [exact Hin|].
    apply String.eqb_refl.
  - destruct (inherited (raw_category r)); [discriminate|].
    intros [= <-]. rewrite keys_push_own, keys_define.
    destruct (mem (raw_category r) (keys o)) eqn:Hmem; [|reflexivity].
    exfalso. apply own_None_keys in Hown. apply Hown.
    unfold mem in Hmem. apply existsb_exists in Hmem.
    destruct Hmem as (x & Hx & E). apply String.eqb_eq in E. now subst.
Qed.

Lemma mem_In (k : string) (ks : list string) : mem k ks = true <-> In k ks.
Proof.
  unfold mem. rewrite existsb_exists. split.
  - intros (x & Hx & E). apply String.eqb_eq in E. now subst.
  - intros H. exists k. split; [exact H | apply String.eqb_refl].
Qed.

(** The bucket of every key after one round of the loop. *)
Lemma group_one_bucket (o o1 : Obj) (r : RawQuestion) (i : nat) (k : string) :
  group_one o r i = OK o1 ->
  bucket o1 k =
  bucket o k ++ (if String.eqb (raw_category r) k then [formatted r i] else []).
Proof.
  rewrite LoaderFacts.group_one_cases. unfold bucket.
  destruct (own o (raw_category r)) as [v|] eqn:Hown.
  - intros [= <-]. destruct (String.eqb_spec (raw_category r) k) as [<-|Hne].
    + now rewrite (own_push_own_same o _ _ v Hown), Hown.
    + rewrite own_push_own_other by congruence. now rewrite app_nil_r.
  - destruct (inherited (raw_category r)); [discriminate|].
    intros [= <-]. destruct (String.eqb_spec (raw_category r) k) as [<-|Hne].
    + rewrite (own_push_own_same _ _ _ [] (JsObjectFacts.own_define o _ [] Hown)).
      now rewrite Hown.
    + rewrite own_push_own_other, own_define_other by congruence.
      now rewrite app_nil_r.
Qed.

Lemma forEach_bucket (data : list RawQuestion) (k : string) :
  forall (i : nat) (o o' : Obj),
    forEach data i o = OK o' -> bucket o' k = bucket o k ++ bucket_of data i k.
Proof.
  induction data as [|r rest IH]; simpl; intros i o o' H.
  - injection H as <-. now rewrite app_nil_r.
  - destruct (group_one o r i) as [o1|] eqn:H1; simpl in H; [|discriminate].
    rewrite (IH _ _ _ H), (group_one_bucket _ _ _ _ k H1), <- app_assoc.
    now destruct (String.eqb (raw_category r) k).
Qed.

Lemma forEach_keys_NoDup (data : list RawQuestion) :
  forall (i : nat) (o o' : Obj),
    forEach data i o = OK o' -> NoDup (keys o) -> NoDup (keys o').
Proof.
  induction data as [|r rest IH]; simpl; intros i o o' H Hnd.
  - now injection H as <-.
  - destruct (group_one o r i) as [o1|] eqn:H1; simpl in H; [|discriminate].
    apply (IH _ _ _ H). rewrite (group_one_keys _ _ _ _ H1).
    destruct (mem (raw_category r) (keys o)) eqn:Hmem; [exact Hnd|].
    eapply Permutation_NoDup; [apply Permutation_sym, insert_key_perm|].
    constructor; [|exact Hnd]. rewrite <- mem_In. congruence.
Qed.

Lemma forEach_keys_In (data : list RawQuestion) (k : string) :
  forall (i : nat) (o o' : Obj),
    forEach data i o = OK o' ->
    (In k (keys o') <-> In k (keys o) \/ In k (map raw_category data)).
Proof.
  induction data as [|r rest IH]; simpl; intros i o o' H.
  - injection H as <-. tauto.
  - destruct (group_one o r i) as [o1|] eqn:H1; simpl in H; [|discriminate].
    rewrite (IH _ _ _ H), (group_one_keys _ _ _ _ H1).
    destruct (mem (raw_category r) (keys o)) eqn:Hmem.
    + apply mem_In in Hmem. split; [tauto|].
      intros [H0|[<-|H0]]; auto.
    + rewrite (Permutation_in' (eq_refl k) (insert_key_perm _ _)). simpl.
      split; [intros [[E|E]|E]; auto | tauto].
Qed.

End CatalogFacts.

Module OrderFacts.
Import JsObject CatalogFacts.

Lemma index_first_insert (k : string) (n : N) (ks : list string) :
  array_index k = Some n ->
  forall b, (b <= n)%N -> index_first_from b ks ->
            index_first_from b (insert_index_key n k ks).
Proof.
  intros Hk. induction ks as [|k' r IH]; simpl; intros b Hb H.
  - now rewrite Hk.
  - destruct (array_index k') as [n'|] eqn:Hk'.
    + destruct H as [Hb' H]. destruct (N.ltb_spec n' n).
      * simpl. rewrite Hk'. split; [exact Hb'|]. apply IH; [lia | exact H].
      * simpl. rewrite Hk, Hk'. auto.
    + simpl. rewrite Hk, Hk'. auto.
Qed.

Lemma index_first_append (k : string) (ks : list string) :
  array_index k = None ->
  forall b, index_first_from b ks -> index_first_from b (ks ++ [k]).
Proof.
  intros Hk. induction ks as [|k' r IH]; simpl; intros b H.
  - rewrite Hk. constructor.
  - destruct (array_index k') as [n'|].
    + destruct H as [Hb H]. auto.
    + apply Forall_app. split; [exact H|].
      constructor; [|constructor]. unfold named. now rewrite Hk.
Qed.

Lemma index_first_insert_key (k : string) (ks : list string) :
  index_first ks -> index_first (insert_key k ks).
Proof.
  unfold index_first, insert_key. intros H.
  destruct (array_index k) as [n|] eqn:Hk.
  - apply (index_first_insert k n ks Hk); [lia | exact H].
  - now apply index_first_append.
Qed.

Lemma forEach_index_first (data : list RawQuestion) :
  forall (i : nat) (o o' : Obj),
    forEach data i o = OK o' -> index_first (keys o) -> index_first (keys o').
Proof.
  induction data as [|r rest IH]; simpl; intros i o o' H Ho.
  - now injection H as <-.
  - destruct (group_one o r i) as [o1|] eqn:H1; simpl in H; [|discriminate].
    apply (IH _ _ _ H). rewrite (group_one_keys _ _ _ _ H1).
    destruct (mem (raw_category r) (keys o)); [exact Ho|].
    now apply index_first_insert_key.
Qed.

Lemma named_index (k : string) (n : N) : array_index k = Some n -> named k = false.
Proof.
  unfold named. now intros ->.
Qed.

Lemma named_none (k : string) : array_index k = None -> named k = true.
Proof.
  unfold named. now intros ->.
Qed.

Lemma filter_named_insert (k : string) (ks : list string) :
  filter named (insert_key k ks) =
  if named k then filter named ks ++ [k] else filter named ks.
Proof.
  unfold insert_key. destruct (array_index k) as [n|] eqn:Hk.
  - rewrite (named_index k n Hk).
    induction ks as [|k' r IH]; simpl.
    + now rewrite (named_index k n Hk).
    + destruct (array_index k') as [n'|] eqn:Hk'.
      * rewrite (named_index k' n' Hk').
        destruct (n' <? n)%N; simpl;
          rewrite ?(named_index k n Hk), ?(named_index k' n' Hk'); auto.
      * rewrite (named_none k' Hk'). simpl.
        now rewrite (named_index k n Hk), (named_none k' Hk').
  - rewrite (named_none k Hk), filter_app. simpl. now rewrite (named_none k Hk).
Qed.

Lemma mem_filter_named (k : string) (ks : list string) :
  named k = true -> mem k (filter named ks) = mem k ks.
Proof.
  intros Hk. induction ks as [|k' r IH]; simpl; [reflexivity|].
  destruct (named k') eqn:Hk'; simpl; rewrite IH; [reflexivity|].
  destruct (String.eqb_spec k k'); [congruence | reflexivity].
Qed.

Lemma first_occ_excl_ext (ks : list string) :
  forall s1 s2, (forall x, mem x s1 = mem x s2) ->
                first_occ_excl s1 ks = first_occ_excl s2 ks.
Proof.
  induction ks as [|k r IH]; simpl; intros s1 s2 H; [reflexivity|].
  rewrite (H k). destruct (mem k s2); [now apply IH|].
  f_equal. apply IH. intros x. simpl. now rewrite (H x).
Qed.

Lemma mem_snoc (x k : string) (s : list string) :
  mem x (s ++ [k]) = mem x (k :: s).
Proof.
  unfold mem. rewrite existsb_app. simpl.
  destruct (String.eqb x k), (existsb (String.eqb x) s); reflexivity.
Qed.

Lemma forEach_named (data : list RawQuestion) :
  forall (i : nat) (o o' : Obj),
    forEach data i o = OK o' ->
    filter named (keys o') =
    filter named (keys o) ++
    first_occ_excl (filter named (keys o)) (filter named (map raw_category data)).
Proof.
  induction data as [|r rest IH]; simpl; intros i o o' H.
  - injection H as <-. now rewrite app_nil_r.
  - destruct (group_one o r i) as [o1|] eqn:H1; simpl in H; [|discriminate].
    rewrite (IH _ _ _ H), (group_one_keys _ _ _ _ H1).
    destruct (named (raw_category r)) eqn:Hn; simpl.
    + rewrite (mem_filter_named _ (keys o) Hn).
      destruct (mem (raw_category r) (keys o)); [reflexivity|].
      rewrite filter_named_insert, Hn, <- app_assoc. simpl. do 2 f_equal.
      apply first_occ_excl_ext. intros x. apply mem_snoc.
    + destruct (mem (raw_category r) (keys o)); [reflexivity|].
      now rewrite filter_named_insert, Hn.
Qed.

Lemma names_keys (o : Obj) : map name (map to_category (entries o)) = keys o.
Proof.
  unfold entries, keys. rewrite map_map. apply map_ext. now intros [k v].
Qed.

Lemma load_forEach (data : list RawQuestion) (cats : list TestCategory) :
  load data = OK cats ->
  exists o, forEach data 0 [] = OK o /\ cats = map to_category (entries o).
Proof.
  unfold load. destruct (forEach data 0 []) as [o|]; simpl; [|discriminate].
  intros [= <-]. now exists o.
Qed.

End OrderFacts.




(** X1: when no category bears the name of a member of [Object.prototype]
    the load succeeds, the sizes of the categories add up to the number of
    records, and the ids of the catalog are 1, 2, ..., n, each used once. *)
Theorem load_plain (data : list RawQuestion) :
  plain_categories data ->
  exists cats,
    load data = OK cats /\
    list_sum (map (fun c => length (questions c)) cats) = length data /\
    Permutation (map id (all_questions cats)) (seq 1 (length data)).
Proof.
  intros H. destruct (load_succeeds data H) as [cats Hload].
  exists cats. split; [exact Hload | exact (load_count data cats Hload)].
Qed.

Lemma load_plain_witness :
  exists cats,
    load mixed_names = OK cats /\
    list_sum (map (fun c => length (questions c)) cats) = length mixed_names /\
    Permutation (map id (all_questions cats)) (seq 1 (length mixed_names)).
Proof.
  apply (load_plain mixed_names). repeat constructor.
Defined.

(** X2: one record filed under the name of a member of [Object.prototype]
    makes the whole load throw, wherever it stands in the input; the error
    is caught, so the fetch leaves every state as it was and none of the
    other records reaches the catalog. *)
Theorem inherited_name_aborts_load (data : list RawQuestion) :
  Exists (fun q => JsObject.inherited (raw_category q) = true) data ->
  load data = Throw TypeError /\
  forall s, step s (Fetched data) = OK s.
Proof.
  intros H.
  assert (Hload : load data = Throw TypeError).
  { unfold load. rewrite LoaderFacts.forEach_throws; [reflexivity|exact H|constructor]. }
  split; [exact Hload|]. intros s. simpl. now rewrite Hload.
Qed.

Lemma inherited_name_aborts_load_witness :
  load (two_categories ++ inherited_category) = Throw TypeError /\
  forall s, step s (Fetched (two_categories ++ inherited_category)) = OK s.
Proof.
  apply (inherited_name_aborts_load (two_categories ++ inherited_category)).
  apply Exists_cons_tl, Exists_cons_tl, Exists_cons_hd. reflexivity.
Defined.

(** X3: the names of the catalog are the category names of the input, each
    once, and no category is empty. *)
Theorem catalog_names (data : list RawQuestion) (cats : list TestCategory) :
  load data = OK cats ->
  NoDup (map name cats) /\
  (forall k, In k (map name cats) <-> In k (map raw_category data)) /\
  Forall (fun c => questions c <> []) cats.
Proof.
  intros Hload. destruct (OrderFacts.load_forEach data cats Hload) as (o & Ho & ->).
  rewrite OrderFacts.names_keys. split; [|split].
  - apply (CatalogFacts.forEach_keys_NoDup data _ _ _ Ho). constructor.
  - intros k. rewrite (CatalogFacts.forEach_keys_In data k _ _ _ Ho). simpl. tauto.
  - eapply Forall_impl; [|exact (load_categories data _ Hload)]. now intros c [H _].
Qed.

Lemma catalog_names_witness :
  NoDup (map name mixed_catalog) /\
  (forall k, In k (map name mixed_catalog) <-> In k (map raw_category mixed_names)) /\
  Forall (fun c => questions c <> []) mixed_catalog.
Proof.
  apply (catalog_names mixed_names mixed_catalog). reflexivity.
Defined.

(** X4: every category of the catalog holds exactly the records filed under
    its name, in input order, each with its position in the whole input
    plus one as id. *)
Theorem catalog_buckets (data : list RawQuestion) (cats : list TestCategory)
        (c : TestCategory) :
  load data = OK cats -> In c cats ->
  questions c = bucket_of data 0 (name c).
Proof.
  intros Hload Hc. destruct (OrderFacts.load_forEach data cats Hload) as (o & Ho & ->).
  apply in_map_iff in Hc. destruct Hc as ([k v] & <- & Hin). simpl.
  unfold JsObject.entries in Hin.
  pose proof (CatalogFacts.forEach_bucket data k _ _ _ Ho) as Hb.
  unfold bucket in Hb. simpl in Hb.
  rewrite (CatalogFacts.own_of_entry o k v) in Hb; [exact Hb | | exact Hin].
  apply (CatalogFacts.forEach_keys_NoDup data _ _ _ Ho). constructor.
Qed.

Lemma catalog_buckets_witness :
  exists c,
    nth_error mixed_catalog 2 = Some c /\
    name c = "Verbal" /\
    map id (questions c) = [1; 5]%nat /\
    questions c = bucket_of mixed_names 0 (name c).
Proof.
  eexists. split; [reflexivity|]. split; [reflexivity|]. split; [reflexivity|].
  apply (catalog_buckets mixed_names mixed_catalog); [reflexivity|].
  right. right. left. reflexivity.
Defined.

(** X5: the order of the catalog is the order of [Object.entries]: the
    categories whose name is an array index come first, in ascending numeric
    order, and the other categories follow in the order in which their names
    first occur in the input. *)
Theorem catalog_order (data : list RawQuestion) (cats : list TestCategory) :
  load data = OK cats ->
  index_first (map name cats) /\
  filter named (map name cats) =
  first_occurrences (filter named (map raw_category data)).
Proof.
  intros Hload. destruct (OrderFacts.load_forEach data cats Hload) as (o & Ho & ->).
  rewrite OrderFacts.names_keys. split.
  - apply (OrderFacts.forEach_index_first data _ _ _ Ho). exact I.
  - now rewrite (OrderFacts.forEach_named data _ _ _ Ho).
Qed.

Lemma catalog_order_witness :
  map name mixed_catalog = ["2"; "10"; "Verbal"; "Logic"] /\
  index_first (map name mixed_catalog) /\
  filter named (map name mixed_catalog) =
  first_occurrences (filter named (map raw_category mixed_names)).
Proof.
  split; [reflexivity|].
  apply (catalog_order mixed_names mixed_catalog). reflexivity.
Defined.

(** ** The flow: sessions from start to results *)

Lemma no_session_inv (s : State) :
  reachable s -> selectedCategory s = None ->
  currentQuestionIndex s = 0%nat /\ userAnswers s = [] /\ score s = 0%nat /\
  showExplanation s = false.
Proof.
  induction 1 as [|s s' e Hreach IH Hr Hs]; [now intros _|].
  destruct e as [data| |k|index| | |]; simpl in Hr, Hs.
  - destruct (load data); injection Hs as <-; exact IH.
  - injection Hs as <-. exact IH.
  - destruct (nth_error (testCategories s) k); injection Hs as <-;
      [discriminate | exact IH].
  - destruct (shownQuestion s) as [q|] eqn:Hq; [|discriminate].
    apply shownQuestion_Some in Hq. destruct Hq as (_ & c & Hc & Hq).
    apply andb_prop in Hr. destruct Hr as [_ Hshow]. apply negb_true_iff in Hshow.
    rewrite (handleAnswer_fresh s c q _ Hc Hq Hshow) in Hs. injection Hs as <-.
    simpl. congruence.
  - injection Hs as <-. exact IH.
  - unfold handleNext in Hs. destruct (selectedCategory s) as [c|] eqn:Hc;
      [|discriminate].
    destruct (_ <? _); injection Hs as <-; simpl; congruence.
  - injection Hs as <-. now intros _.
Qed.

Lemma results_inv (s : State) :
  reachable s -> currentState s = results ->
  forall c, selectedCategory s = Some c ->
            S (currentQuestionIndex s) = length (questions c).
Proof.
  induction 1 as [|s s' e Hreach IH Hr Hs]; [discriminate|].
  pose proof (reachable_inv s Hreach) as Hinv.
  destruct e as [data| |k|index| | |]; simpl in Hr, Hs.
  - destruct (load data); injection Hs as <-; exact IH.
  - injection Hs as <-. discriminate.
  - destruct (currentState s) eqn:Hst; try discriminate.
    destruct (nth_error (testCategories s) k); injection Hs as <-;
      simpl; [discriminate | congruence].
  - destruct (shownQuestion s) as [q|] eqn:Hq; [|discriminate].
    apply shownQuestion_Some in Hq. destruct Hq as (Hst & c & Hc & Hq).
    apply andb_prop in Hr. destruct Hr as [_ Hshow]. apply negb_true_iff in Hshow.
    rewrite (handleAnswer_fresh s c q _ Hc Hq Hshow) in Hs. injection Hs as <-.
    simpl. congruence.
  - destruct (shownQuestion s) as [q|] eqn:Hq; [|discriminate].
    apply shownQuestion_Some in Hq. destruct Hq as (Hst & _).
    injection Hs as <-. simpl. congruence.
  - destruct (shownQuestion s) as [q|] eqn:Hq; [|discriminate].
    apply shownQuestion_Some in Hq. destruct Hq as (Hst & c & Hc & Hq).
    rewrite (handleNext_cases s c Hc (inv_index s Hinv c Hc)) in Hs.
    destruct (S (currentQuestionIndex s) =? length (questions c))%nat eqn:E;
      injection Hs as <-; simpl.
    + intros _ c' Hc'. apply Nat.eqb_eq in E. congruence.
    + congruence.
  - injection Hs as <-. discriminate.
Qed.

(** X6: outside the testing and results screens nothing of a session is
    kept.  In every reachable state the welcome and the category screens
    have no selected category, the index is 0, there are no answers, the
    score is 0 and no feedback is pending; the testing and results screens
    always have a category. *)
Theorem session_matches_screen (s : State) :
  reachable s ->
  match currentState s with
  | welcome | category_selection =>
      selectedCategory s = None /\ currentQuestionIndex s = 0%nat /\
      userAnswers s = [] /\ score s = 0%nat /\ showExplanation s = false
  | testing | results => exists c, selectedCategory s = Some c
  end.
Proof.
  intros Hreach. pose proof (reachable_inv s Hreach) as Hinv.
  pose proof (no_session_inv s Hreach) as Hnone.
  destruct (selectedCategory s) as [c|] eqn:Hc.
  - destruct (inv_screen s Hinv c Hc) as [H|[H _]]; rewrite H; eauto.
  - destruct (inv_no_session s Hinv Hc) as [H|H]; rewrite H; auto.
Qed.

Lemma session_matches_screen_witness :
  exists c, selectedCategory finished_session = Some c.
Proof.
  apply (session_matches_screen finished_session).
  apply (run_reachable (open_first two_questions ++ answer_each [1; 3]%nat) initial);
    [exact reachable_initial | reflexivity].
Defined.

(** X7: the number of answers follows the position.  In every reachable
    state with a session there is one answer for every question before the
    current one, and one more exactly while the feedback of the current
    question is showing. *)
Theorem answers_follow_index (s : State) (c : TestCategory) :
  reachable s -> selectedCategory s = Some c ->
  length (userAnswers s) =
  (currentQuestionIndex s + if showExplanation s then 1 else 0)%nat.
Proof.
  intros Hreach Hc. exact (inv_answers s (reachable_inv s Hreach) c Hc).
Qed.

(** X8: the results screen is reached only with every question answered.
    In every reachable state that shows the results, the session has exactly
    one answer for each question of its category, the index is the last one,
    and the only control is the one that starts over. *)
Theorem results_complete (s : State) :
  reachable s -> currentState s = results ->
  exists c,
    selectedCategory s = Some c /\
    length (userAnswers s) = length (questions c) /\
    S (currentQuestionIndex s) = length (questions c) /\
    forall e, rendered s e = true ->
              e = ClickNewAssessment \/ exists data, e = Fetched data.
Proof.
  intros Hreach Hst. pose proof (reachable_inv s Hreach) as Hinv.
  destruct (selectedCategory s) as [c|] eqn:Hc.
  2:{ destruct (inv_no_session s Hinv Hc); congruence. }
  exists c. split; [reflexivity|].
  pose proof (results_inv s Hreach Hst c Hc) as Hlast.
  destruct (inv_screen s Hinv c Hc) as [H|[_ Hshow]]; [congruence|].
  pose proof (inv_answers s Hinv c Hc) as Hans. rewrite Hshow in Hans.
  split; [lia|]. split; [exact Hlast|].
  intros e He. destruct e; simpl in He; unfold shownQuestion in He;
    rewrite ?Hst in He; try discriminate; eauto.
Qed.

Lemma answers_follow_index_witness :
  length (userAnswers answered_wrong_session) =
  (currentQuestionIndex answered_wrong_session +
   if showExplanation answered_wrong_session then 1 else 0)%nat.
Proof.
  eapply (answers_follow_index answered_wrong_session); [|reflexivity].
  apply (run_reachable (open_first two_questions ++ [ClickOption 2]) initial);
    [exact reachable_initial | reflexivity].
Defined.

Lemma finished_reachable : reachable finished_session.
Proof.
  apply (run_reachable (open_first two_questions ++ answer_each [1; 3]%nat) initial);
    [exact reachable_initial | reflexivity].
Qed.

Lemma answered_wrong_reachable : reachable answered_wrong_session.
Proof.
  apply (run_reachable (open_first two_questions ++ [ClickOption 2]) initial);
    [exact reachable_initial | reflexivity].
Qed.

Lemma results_complete_witness :
  exists c,
    selectedCategory finished_session = Some c /\
    length (userAnswers finished_session) = length (questions c) /\
    S (currentQuestionIndex finished_session) = length (questions c) /\
    forall e, rendered finished_session e = true ->
              e = ClickNewAssessment \/ exists data, e = Fetched data.
Proof.
  apply (results_complete finished_session finished_reachable). reflexivity.
Defined.

Lemma skipn_cons_nth (A : Type) (l : list A) :
  forall i x r,
    skipn i l = x :: r ->
    nth_error l i = Some x /\ skipn (S i) l = r /\ (i < length l)%nat /\
    (S i = length l <-> r = []).
Proof.
  induction l as [|y l IH]; intros [|i] x r H; simpl in *; try discriminate.
  - injection H as -> ->. repeat split; try lia.
    + intros E. destruct r; [reflexivity | simpl in E; lia].
    + now intros ->.
  - destruct (IH i x r H) as (H1 & H2 & H3 & H4). repeat split; auto; try lia.
    + intros E. apply H4. lia.
    + intros E. apply H4 in E. lia.
Qed.

(** The rest of a session: from an unanswered question, one pick per
    remaining question leads to the results. *)
Lemma run_rest (c : TestCategory) (picks : list nat) :
  forall s,
    currentState s = testing -> selectedCategory s = Some c ->
    showExplanation s = false ->
    skipn (currentQuestionIndex s) (questions c) <> [] ->
    Forall2 (fun index q => (index < length (options q))%nat) picks
            (skipn (currentQuestionIndex s) (questions c)) ->
    exists s',
      run s (answer_each picks) = Some s' /\
      currentState s' = results /\
      selectedCategory s' = Some c /\
      userAnswers s' = userAnswers s ++ map Z.of_nat picks /\
      score s' =
      (score s + count_correct (skipn (currentQuestionIndex s) (questions c))
                               (map Z.of_nat picks))%nat.
Proof.
  induction picks as [|p picks IH]; intros s Hst Hc Hshow Hne Hall.
  - inversion Hall as [E|]. congruence.
  - destruct (skipn (currentQuestionIndex s) (questions c)) as [|q qs'] eqn:E;
      [congruence|].
    inversion Hall as [|? ? ? ? Hp Hrest]; subst.
    destruct (skipn_cons_nth _ _ _ _ _ E) as (Hq & Hskip & Hlt & Hlast).
    assert (Hr1 : rendered s (ClickOption p) = true).
    { simpl. unfold shownQuestion. rewrite Hst, Hc, Hq, Hshow.
      apply andb_true_intro. split; [now apply Nat.ltb_lt | reflexivity]. }
    change (answer_each (p :: picks))
      with (ClickOption p :: ClickNext :: answer_each picks).
    cbn [run]. rewrite Hr1. cbn [step].
    rewrite (handleAnswer_fresh s c q _ Hc Hq Hshow).
    set (s1 := mkState _ _ _ _ _ _ _ _).
    assert (Hr2 : rendered s1 ClickNext = true).
    { simpl. unfold shownQuestion. simpl. now rewrite Hst, Hc, Hq. }
    rewrite Hr2. cbn [step].
    rewrite (handleNext_cases s1 c Hc Hlt).
    change (currentQuestionIndex s1) with (currentQuestionIndex s).
    destruct (S (currentQuestionIndex s) =? length (questions c))%nat eqn:Elast.
    + apply Nat.eqb_eq, Hlast in Elast. rewrite Elast in Hrest.
      inversion Hrest as [Ep|]. clear Hskip Hlast. subst qs'.
      cbn [answer_each flat_map run].
      eexists. split; [reflexivity|]. simpl. rewrite Hc. repeat split.
      destruct (strict_eq (Z.of_nat p) (correct q)); lia.
    + apply Nat.eqb_neq in Elast.
      assert (Hne' : qs' <> []) by (intros H; apply Elast, Hlast, H).
      set (s2 := setShowExplanation false _).
      assert (Hidx : currentQuestionIndex s2 = S (currentQuestionIndex s)).
      { simpl. apply Nat.add_1_r. }
      destruct (IH s2) as (s' & Hrun & Hres & Hcat & Hans & Hscore);
        rewrite ?Hidx, ?Hskip; auto.
      exists s'. split; [exact Hrun|]. split; [exact Hres|]. split; [exact Hcat|].
      rewrite Hidx, Hskip in Hscore. split.
      * rewrite Hans. simpl. now rewrite <- app_assoc.
      * rewrite Hscore. simpl. lia.
Qed.



(** X10: a question without options stalls the session.  On the testing
    screen of an unanswered question whose option list is empty, no event
    that can happen changes the question, the answers, the score or the
    feedback: there is nothing to click but the voice button. *)
Theorem no_options_stalls (s s' : State) (q : Question) (e : Event) :
  shownQuestion s = Some q -> options q = [] -> showExplanation s = false ->
  rendered s e = true -> step s e = OK s' ->
  shownQuestion s' = Some q /\ showExplanation s' = false /\
  userAnswers s' = userAnswers s /\ score s' = score s /\
  (e = ClickVoice \/ exists data, e = Fetched data).
Proof.
  intros Hq Hopt Hshow Hr Hs.
  pose proof (shownQuestion_Some s q Hq) as (Hst & c & Hc & Hnth).
  destruct e as [data| |k|index| | |]; simpl in Hr, Hs;
    rewrite ?Hq, ?Hst, ?Hopt, ?Hshow in Hr; try discriminate.
  - destruct (load data); injection Hs as <-; repeat split; eauto.
  - injection Hs as <-. repeat split; auto.
Qed.

Lemma no_options_stalls_witness :
  exists q,
    shownQuestion stalled_session = Some q /\
    shownQuestion (setVoiceOn false stalled_session) = Some q /\
    userAnswers (setVoiceOn false stalled_session) = userAnswers stalled_session.
Proof.
  eexists. split; [reflexivity|].
  destruct (no_options_stalls stalled_session (setVoiceOn false stalled_session)
              _ ClickVoice eq_refl eq_refl eq_refl eq_refl eq_refl)
    as (H1 & _ & H3 & _).
  split; [exact H1 | exact H3].
Defined.

(** ** The screens *)

Lemma nth_error_mapi_from (A B : Type) (f : A -> nat -> B) (l : list A) :
  forall i0 i,
    nth_error (mapi_from f l i0) i =
    option_map (fun x => f x (i0 + i)%nat) (nth_error l i).
Proof.
  induction l as [|x l IH]; intros i0 [|i]; simpl; try reflexivity.
  - now rewrite Nat.add_0_r.
  - rewrite IH. now rewrite Nat.add_succ_r.
Qed.

Lemma Forall_mapi_from (A B : Type) (f : A -> nat -> B) (P : B -> Prop) (l : list A) :
  (forall x i, P (f x i)) -> forall i0, Forall P (mapi_from f l i0).
Proof.
  intros H. induction l as [|x l IH]; intros i0; simpl; constructor; auto.
Qed.

Lemma getScoreMessage_OK (s : State) (c : TestCategory) :
  selectedCategory s = Some c -> exists m, getScoreMessage s = OK m.
Proof.
  intros Hc. unfold getScoreMessage. rewrite Hc.
  repeat match goal with
         | |- context [if ?b then _ else _] => destruct b
         end; eauto.
Qed.

(** X11: rendering a reachable state never throws and never returns
    nothing: the screen is the welcome screen, the category list, a question
    or the results, according to the flow state. *)
Theorem render_reachable (s : State) :
  reachable s ->
  exists v,
    render s = OK v /\
    match v with
    | WelcomeScreen => currentState s = welcome
    | CategoryScreen cards =>
        currentState s = category_selection /\
        map card_name cards = map name (testCategories s)
    | TestingView t =>
        currentState s = testing /\
        shownQuestion s <> None
    | ResultsView r => currentState s = results
    | Blank => False
    end.
Proof.
  intros Hreach. pose proof (reachable_inv s Hreach) as Hinv.
  unfold render, shownQuestion. destruct (currentState s) eqn:Hst.
  - eexists. split; [reflexivity|]. reflexivity.
  - eexists. split; [reflexivity|]. split; [reflexivity|].
    rewrite map_map. reflexivity.
  - destruct (selectedCategory s) as [c|] eqn:Hc.
    + pose proof (inv_index s Hinv c Hc) as Hidx.
      destruct (nth_error (questions c) (currentQuestionIndex s)) eqn:Hq.
      * eexists. split; [reflexivity|]. split; [reflexivity | discriminate].
      * apply nth_error_None in Hq. lia.
    + destruct (inv_no_session s Hinv Hc); congruence.
  - destruct (selectedCategory s) as [c|] eqn:Hc.
    + destruct (getScoreMessage_OK s c Hc) as [m Hm].
      unfold accuracyPercent. rewrite Hc, Hm. simpl.
      eexists. split; [reflexivity|]. reflexivity.
    + destruct (inv_no_session s Hinv Hc); congruence.
Qed.

Lemma render_reachable_witness :
  exists v,
    render finished_session = OK v /\
    match v with
    | WelcomeScreen => currentState finished_session = welcome
    | CategoryScreen cards =>
        currentState finished_session = category_selection /\
        map card_name cards = map name (testCategories finished_session)
    | TestingView t =>
        currentState finished_session = testing /\
        shownQuestion finished_session <> None
    | ResultsView r => currentState finished_session = results
    | Blank => False
    end.
Proof.
  apply (render_reachable finished_session finished_reachable).
Defined.

(** X12: the feedback agrees with the score.  When a submission is accepted
    in a reachable state, the next screen shows CORRECT exactly when the
    submission raised the score by one; it shows the new score, disables
    every option button and offers the Next button. *)
Theorem feedback_matches_score (s : State) (a : Z) :
  reachable s -> currentState s = testing -> showExplanation s = false ->
  exists s' t,
    handleAnswer a s = OK s' /\
    render s' = OK (TestingView t) /\
    feedback t = Some (score s' =? S (score s))%nat /\
    score_shown t = score s' /\
    Forall (fun b => option_disabled b = true) (option_buttons t) /\
    next_label t <> None.
Proof.
  intros Hreach Hst Hshow. pose proof (reachable_inv s Hreach) as Hinv.
  destruct (selectedCategory s) as [c|] eqn:Hc.
  2:{ destruct (inv_no_session s Hinv Hc); congruence. }
  pose proof (inv_index s Hinv c Hc) as Hidx.
  pose proof (inv_answers s Hinv c Hc) as Hans. rewrite Hshow in Hans.
  destruct (nth_error (questions c) (currentQuestionIndex s)) as [q|] eqn:Hq.
  2:{ apply nth_error_None in Hq. lia. }
  eexists. eexists. split; [apply (handleAnswer_fresh s c q a Hc Hq Hshow)|].
  unfold render. cbn [currentState selectedCategory currentQuestionIndex].
  rewrite Hst, Hc, Hq. split; [reflexivity|].
  cbn [testingScreen feedback score_shown option_buttons next_label
       showExplanation score]. split; [|split; [reflexivity|split]].
  - f_equal. unfold answer_is. cbn [userAnswers currentQuestionIndex andb].
    replace (currentQuestionIndex s) with (length (userAnswers s) + 0)%nat by lia.
    rewrite nth_error_app2 by lia.
    replace (length (userAnswers s) + 0 - length (userAnswers s))%nat with 0%nat by lia.
    simpl. destruct (strict_eq a (correct q)); symmetry.
    + apply Nat.eqb_eq. lia.
    + apply Nat.eqb_neq. lia.
  - apply Forall_mapi_from. reflexivity.
  - discriminate.
Qed.

Lemma feedback_matches_score_witness :
  exists s' t,
    handleAnswer 1 unanswered_session = OK s' /\
    render s' = OK (TestingView t) /\
    feedback t = Some (score s' =? S (score unanswered_session))%nat /\
    score_shown t = score s' /\
    Forall (fun b => option_disabled b = true) (option_buttons t) /\
    next_label t <> None.
Proof.
  apply (feedback_matches_score unanswered_session 1 unanswered_reachable);
    reflexivity.
Defined.

(** X13: the marking of the options once the feedback shows.  The button at
    position [i] is marked as the right answer exactly when [i] is the
    correct index of the question, and as the wrong pick exactly when [i] is
    the submitted answer and not the correct index; so a question whose
    correct index is outside its options has no button marked as right. *)
Theorem option_marking (s : State) (q : Question) (t : TestingScreen) :
  render s = OK (TestingView t) -> shownQuestion s = Some q ->
  showExplanation s = true ->
  length (option_buttons t) = length (options q) /\
  (forall i b,
      nth_error (option_buttons t) i = Some b ->
      nth_error (options q) i = Some (option_text b) /\
      (option_class b = RightAnswer <-> correct q = Int (Z.of_nat i)) /\
      (option_class b = WrongPick <->
       correct q <> Int (Z.of_nat i) /\
       nth_error (userAnswers s) (currentQuestionIndex s) = Some (Z.of_nat i))) /\
  (~ valid_index (correct q) (length (options q)) ->
   Forall (fun b => option_class b <> RightAnswer) (option_buttons t)).
Proof.
  intros Hrender Hq Hshow.
  pose proof (shownQuestion_Some s q Hq) as (Hst & c & Hc & Hnth).
  unfold render in Hrender. rewrite Hst, Hc, Hnth in Hrender.
  injection Hrender as <-. cbn [testingScreen option_buttons].
  assert (Hlen : forall (l : list string) i0,
             length (mapi_from (optionButton s q) l i0) = length l).
  { induction l; simpl; auto. }
  assert (Hright : forall i,
             strict_eq (Z.of_nat i) (correct q) = true <-> correct q = Int (Z.of_nat i)).
  { intros i. destruct (correct q) as [z|]; simpl.
    - rewrite Z.eqb_eq. split; congruence.
    - split; discriminate. }
  assert (Hbutton : forall i b,
             nth_error (mapi_from (optionButton s q) (options q) 0) i = Some b ->
             exists o, nth_error (options q) i = Some o /\ b = optionButton s q o i).
  { intros i b Hb. rewrite nth_error_mapi_from in Hb.
    destruct (nth_error (options q) i) as [o|]; [|discriminate].
    injection Hb as <-. now exists o. }
  split; [apply Hlen|]. split.
  - intros i b Hb. destruct (Hbutton i b Hb) as (o & Ho & ->).
    split; [exact Ho|]. unfold optionButton. cbn [option_class option_text].
    rewrite Hshow. cbn [negb]. specialize (Hright i).
    destruct (strict_eq (Z.of_nat i) (correct q)) eqn:E.
    + split; [tauto|]. split; [discriminate|]. intros [H _]. tauto.
    + assert (Hne : correct q <> Int (Z.of_nat i)).
      { intros H. apply Hright in H. discriminate. }
      unfold answer_is.
      destruct (nth_error (userAnswers s) (currentQuestionIndex s)) as [a|];
        simpl.
      * destruct (Z.eqb_spec a (Z.of_nat i)) as [->|Ha].
        -- split; [split; [discriminate | tauto] | tauto].
        -- split; [split; [discriminate | tauto]|].
           split; [discriminate|]. intros [_ [= H]]. congruence.
      * split; [split; [discriminate | tauto]|].
        split; [discriminate|]. intros [_ H]. discriminate.
  - intros Hbad. apply Forall_forall. intros b Hin.
    apply In_nth_error in Hin. destruct Hin as [i Hb].
    destruct (Hbutton i b Hb) as (o & Ho & ->).
    unfold optionButton. cbn [option_class]. rewrite Hshow. cbn [negb].
    destruct (strict_eq (Z.of_nat i) (correct q)) eqn:E.
    + exfalso. apply Hbad. apply Hright in E. rewrite E. simpl.
      assert (i < length (options q))%nat by (apply nth_error_Some; congruence).
      lia.
    + destruct (answer_is s (Int (Z.of_nat i))); discriminate.
Qed.

Lemma option_marking_witness :
  exists q,
    shownQuestion answered_wrong_session = Some q /\
    map option_class (option_buttons answered_wrong_screen)
    = [Dimmed; RightAnswer; WrongPick; Dimmed] /\
    length (option_buttons answered_wrong_screen) = length (options q).
Proof.
  eexists. split; [reflexivity|]. split; [reflexivity|].
  apply (option_marking answered_wrong_session _ answered_wrong_screen);
    reflexivity.
Defined.

(** X14: the label of the Next button tells what the click does.  On an
    answered question of a reachable session the button reads VIEW RESULTS
    when the click leads to the results screen and NEXT QUESTION when it
    leads to the next question, unanswered. *)
Theorem next_label_tells (s : State) :
  reachable s -> currentState s = testing -> showExplanation s = true ->
  exists t s',
    render s = OK (TestingView t) /\ handleNext s = OK s' /\
    ((next_label t = Some "VIEW RESULTS" /\ currentState s' = results) \/
     (next_label t = Some "NEXT QUESTION" /\ currentState s' = testing /\
      currentQuestionIndex s' = S (currentQuestionIndex s) /\
      showExplanation s' = false)).
Proof.
  intros Hreach Hst Hshow. pose proof (reachable_inv s Hreach) as Hinv.
  destruct (selectedCategory s) as [c|] eqn:Hc.
  2:{ destruct (inv_no_session s Hinv Hc); congruence. }
  pose proof (inv_index s Hinv c Hc) as Hidx.
  destruct (nth_error (questions c) (currentQuestionIndex s)) as [q|] eqn:Hq.
  2:{ apply nth_error_None in Hq. lia. }
  unfold render, handleNext. rewrite Hst, Hc, Hq.
  destruct (Z.of_nat (currentQuestionIndex s) <? Z.of_nat (length (questions c)) - 1)
    eqn:E; eexists; eexists; (split; [reflexivity|]); (split; [reflexivity|]);
    cbn [testingScreen next_label]; rewrite Hshow, E.
  - right. simpl. rewrite Hst, Nat.add_1_r. auto.
  - left. auto.
Qed.

Lemma next_label_tells_witness :
  exists t s',
    render answered_wrong_session = OK (TestingView t) /\
    handleNext answered_wrong_session = OK s' /\
    ((next_label t = Some "VIEW RESULTS" /\ currentState s' = results) \/
     (next_label t = Some "NEXT QUESTION" /\ currentState s' = testing /\
      currentQuestionIndex s' = S (currentQuestionIndex answered_wrong_session) /\
      showExplanation s' = false)).
Proof.
  apply (next_label_tells answered_wrong_session answered_wrong_reachable);
    reflexivity.
Defined.

Lemma pos_of_nat_S (b : nat) : Z.pos (Pos.of_nat (S b)) = Z.of_nat (S b).
Proof.
  now rewrite <- Pos.of_nat_succ, Zpos_P_of_succ_nat, Nat2Z.inj_succ.
Qed.

(** X15: the header of the testing screen.  In every reachable state the
    question number is between 1 and the number of questions, the score
    shown is at most the question number, and the width of the progress bar
    is a percentage above 0 and at most 100 that is 100 exactly on the last
    question. *)
Theorem progress_bounds (s : State) (t : TestingScreen) :
  reachable s -> render s = OK (TestingView t) ->
  (1 <= question_number t <= question_total t)%nat /\
  (score_shown t <= question_number t)%nat /\
  exists w,
    progress_width t = Real w /\ (0 < w)%Q /\ (w <= 100)%Q /\
    ((w == 100)%Q <-> question_number t = question_total t).
Proof.
  intros Hreach Hrender. pose proof (reachable_inv s Hreach) as Hinv.
  unfold render in Hrender. destruct (currentState s) eqn:Hst; try discriminate.
  - destruct (selectedCategory s) as [c|] eqn:Hc; [|discriminate].
    destruct (nth_error (questions c) (currentQuestionIndex s)) as [q|];
      [|discriminate].
    injection Hrender as <-.
    cbn [testingScreen question_number question_total score_shown progress_width].
    pose proof (inv_index s Hinv c Hc) as Hidx.
    pose proof (inv_answers s Hinv c Hc) as Hans.
    pose proof (inv_score s Hinv c Hc) as Hsc.
    pose proof (count_correct_le (questions c) (userAnswers s)) as Hle.
    split; [lia|]. split; [destruct (showExplanation s); lia|].
    destruct (length (questions c)) as [|n] eqn:Hn; [lia|].
    unfold js_div, js_mul. eexists. split; [reflexivity|].
    unfold Qlt, Qle, Qeq, Qmult, inject_Z. cbn [Qnum Qden].
    rewrite Pos.mul_1_r, pos_of_nat_S.
    repeat split; lia.
  - destruct (selectedCategory s); [|discriminate].
    destruct (accuracyPercent s); simpl in Hrender; [|discriminate].
    destruct (getScoreMessage s); simpl in Hrender; discriminate.
Qed.

Lemma progress_bounds_witness :
  (1 <= question_number answered_wrong_screen
   <= question_total answered_wrong_screen)%nat /\
  (score_shown answered_wrong_screen <= question_number answered_wrong_screen)%nat /\
  exists w,
    progress_width answered_wrong_screen = Real w /\ (0 < w)%Q /\ (w <= 100)%Q /\
    ((w == 100)%Q <->
     question_number answered_wrong_screen = question_total answered_wrong_screen).
Proof.
  apply (progress_bounds answered_wrong_session answered_wrong_screen
                         answered_wrong_reachable).
  reflexivity.
Defined.


Lemma table_all (f : nat -> nat -> bool) (bound : nat) :
  table f bound = true ->
  forall right total,
    (right <= total)%nat -> (1 <= total <= bound)%nat -> f right total = true.
Proof.
  unfold table. intros H right total Hle Hn.
  rewrite forallb_forall in H.
  assert (Hin : In total (seq 1 bound)) by (apply in_seq; lia).
  specialize (H total Hin). rewrite forallb_forall in H.
  apply H, in_seq. lia.
Qed.

(** The percentages of all scores of all categories of up to 200
    questions, evaluated in binary64 one by one. *)
Lemma percent_table_200 : table percent_ok 200 = true.
Proof.
  vm_compute. reflexivity.
Qed.

Lemma percent_ok_all (right total : nat) :
  (right <= total)%nat -> (1 <= total <= 200)%nat ->
  percent_ok right total = true.
Proof.
  exact (table_all percent_ok 200 percent_table_200 right total).
Qed.

(** What an entry of the table says. *)
Lemma percent_ok_facts (right total : nat) :
  percent_ok right total = true ->
  exists p,
    Math_round (double_percentage right total) = Real (inject_Z p) /\
    (0 <=? p) = true /\ (p <=? 100) = true /\
    (2 * Z.of_nat total * p - Z.of_nat total <=? 200 * Z.of_nat right) = true /\
    (200 * Z.of_nat right <=? 2 * Z.of_nat total * p + Z.of_nat total) = true /\
    implb (Z.of_nat right =? Z.of_nat total) (p =? 100) = true /\
    implb (Z.of_nat right =? 0) (p =? 0) = true /\
    (80 <=? p) = (159 * Z.of_nat total <=? 200 * Z.of_nat right) /\
    (60 <=? p) = (119 * Z.of_nat total <=? 200 * Z.of_nat right) /\
    (40 <=? p) = (79 * Z.of_nat total <=? 200 * Z.of_nat right) /\
    double_ge (double_percentage right total) 80
    = (80 * Z.of_nat total <=? 100 * Z.of_nat right) /\
    double_ge (double_percentage right total) 60
    = (60 * Z.of_nat total <=? 100 * Z.of_nat right) /\
    double_ge (double_percentage right total) 40
    = (40 * Z.of_nat total <=? 100 * Z.of_nat right).
Proof.
  unfold percent_ok.
  destruct (Math_round (double_percentage right total)) as [[p d]| |];
    try discriminate.
  cbn [Qnum Qden]. intros H.
  repeat match type of H with
         | (_ && _) = true => apply andb_prop in H; destruct H as [H ?]
         end.
  repeat match goal with
         | E : Bool.eqb _ _ = true |- _ => apply Bool.eqb_prop in E
         end.
  apply Pos.eqb_eq in H. subst d. exists p.
  repeat split; assumption.
Qed.

(** X16: the percentage of the results screen, for categories of up to 200
    questions.  It is an integer at most half a point away from
    [100 * score / total] (when the exact percentage ends in .5 the double
    may fall on either side: 23 of 40 shows 57); it lies between 0 and 100,
    is 100 for a perfect score and 0 for a score of 0. *)
Theorem accuracy_rounds (s : State) :
  reachable s -> currentState s = results ->
  exists c,
    selectedCategory s = Some c /\
    ((length (questions c) <= 200)%nat ->
     exists p,
       accuracyPercent s = OK (Real (inject_Z p)) /\
       let total := Z.of_nat (length (questions c)) in
       let right := Z.of_nat (score s) in
       2 * total * p - total <= 200 * right <= 2 * total * p + total /\
       0 <= p <= 100 /\
       (right = total -> p = 100) /\ (right = 0 -> p = 0)).
Proof.
  intros Hreach Hst. pose proof (reachable_inv s Hreach) as Hinv.
  destruct (selectedCategory s) as [c|] eqn:Hc.
  2:{ destruct (inv_no_session s Hinv Hc); congruence. }
  pose proof (inv_index s Hinv c Hc) as Hidx.
  pose proof (inv_answers s Hinv c Hc) as Hans.
  pose proof (inv_score s Hinv c Hc) as Hsc.
  pose proof (count_correct_le (questions c) (userAnswers s)) as Hle.
  pose proof (results_inv s Hreach Hst c Hc) as Hlast.
  assert (Hscore : (score s <= length (questions c))%nat).
  { destruct (showExplanation s); lia. }
  exists c. split; [reflexivity|]. intros Hbound.
  destruct (percent_ok_facts _ _ (percent_ok_all (score s) (length (questions c))
                                                 Hscore ltac:(lia)))
    as (p & Hp & H0 & H100 & Hlo & Hhi & Hall & Hnone & _).
  exists p. unfold accuracyPercent. rewrite Hc, Hp. split; [reflexivity|].
  cbv zeta. apply Z.leb_le in H0, H100, Hlo, Hhi.
  split; [lia|]. split; [lia|]. split.
  - intros E. apply Z.eqb_eq in E. rewrite E in Hall. now apply Z.eqb_eq.
  - intros E. apply Z.eqb_eq in E. rewrite E in Hnone. now apply Z.eqb_eq.
Qed.

Lemma accuracy_rounds_witness :
  exists c,
    selectedCategory finished_session = Some c /\
    exists p,
      accuracyPercent finished_session = OK (Real (inject_Z p)) /\
      let total := Z.of_nat (length (questions c)) in
      let right := Z.of_nat (score finished_session) in
      2 * total * p - total <= 200 * right <= 2 * total * p + total /\
      0 <= p <= 100 /\
      (right = total -> p = 100) /\ (right = 0 -> p = 0).
Proof.
  destruct (accuracy_rounds finished_session finished_reachable eq_refl)
    as (c & Hc & H).
  exists c. split; [exact Hc|]. apply H.
  injection Hc as <-. simpl. lia.
Defined.


Lemma near_miss_reachable : reachable near_miss_session.
Proof.
  apply (run_reachable
           (open_first forty_four ++ answer_all 0 35 ++ answer_all 1 9) initial);
    [exact reachable_initial | vm_compute; reflexivity].
Qed.


(** X24: the thresholds in binary64, for categories of up to 200
    questions.  In every reachable state with a session, evaluating
    [getScoreMessage] with the quotient, the product and the three
    comparisons in binary64 gives the same message as the exact
    comparisons [100 * score >= t * total]. *)
Theorem getScoreMessage_in_binary64 (s : State) (c : TestCategory) :
  reachable s -> selectedCategory s = Some c ->
  (length (questions c) <= 200)%nat ->
  getScoreMessage_binary64 s = getScoreMessage s.
Proof.
  intros Hreach Hc Hbound. pose proof (reachable_inv s Hreach) as Hinv.
  pose proof (inv_index s Hinv c Hc) as Hidx.
  pose proof (inv_answers s Hinv c Hc) as Hans.
  pose proof (inv_score s Hinv c Hc) as Hsc.
  pose proof (count_correct_le (questions c) (userAnswers s)) as Hle.
  assert (Hscore : (score s <= length (questions c))%nat).
  { destruct (showExplanation s); lia. }
  assert (Hpos : (0 < length (questions c))%nat) by lia.
  destruct (percent_ok_facts _ _ (percent_ok_all (score s) (length (questions c))
                                                 Hscore ltac:(lia)))
    as (p & _ & _ & _ & _ & _ & _ & _ & _ & _ & _ & H80 & H60 & H40).
  unfold getScoreMessage_binary64, getScoreMessage. rewrite Hc. cbv zeta.
  rewrite !(fun t => percentage_ge (score s) _ t Hpos).
  now rewrite H80, H60, H40.
Qed.

Lemma getScoreMessage_in_binary64_witness :
  getScoreMessage_binary64 near_miss_session = OK "Good performance." /\
  getScoreMessage_binary64 near_miss_session = getScoreMessage near_miss_session.
Proof.
  split; [vm_compute; reflexivity|].
  eapply (getScoreMessage_in_binary64 near_miss_session _ near_miss_reachable);
    [reflexivity | simpl; lia].
Defined.

(** ** The slug, once more *)

Module SlugShape.
Import JsString.
Local Open Scope string_scope.

Lemma lower_not_upper (c : ascii) : is_upper (lower_char c) = false.
Proof.
  destruct c as [[] [] [] [] [] [] [] []]; reflexivity.
Qed.

Lemma toLowerCase_no_upper (s : string) :
  all_chars no_upper (toLowerCase s) = true.
Proof.
  induction s as [|c s IH]; simpl; [reflexivity|].
  unfold no_upper at 1. now rewrite lower_not_upper, IH.
Qed.

Lemma toLowerCase_fixed (s : string) :
  all_chars no_upper s = true -> toLowerCase s = s.
Proof.
  induction s as [|c s IH]; simpl; [reflexivity|].
  intros H. apply andb_prop in H. destruct H as [Hc Hs].
  unfold no_upper in Hc. apply negb_true_iff in Hc.
  unfold lower_char. now rewrite Hc, IH.
Qed.

Lemma replace_runs_no_upper (s : string) :
  all_chars no_upper s = true ->
  forall f, all_chars no_upper (replace_runs f s) = true.
Proof.
  induction s as [|c s IH]; simpl; intros H f; [reflexivity|].
  apply andb_prop in H. destruct H as [Hc Hs].
  destruct (is_space c); [destruct f|]; simpl; rewrite ?Hc, ?(IH Hs); auto.
Qed.

Lemma replace_runs_clean (s : string) :
  forall f, all_chars no_space (replace_runs f s) = true.
Proof.
  induction s as [|c s IH]; simpl; intros f; [reflexivity|].
  destruct (is_space c) eqn:Hc; [destruct f|]; simpl; rewrite ?IH; auto.
  unfold no_space. now rewrite Hc.
Qed.

End SlugShape.

(** X18: the shape of a slug.  On names of code units below 256, a slug
    contains no whitespace and no capital letter, and it is its own slug. *)
Theorem slug_clean (s : string) :
  JsString.all_chars no_space (slug s) = true /\
  JsString.all_chars no_upper (slug s) = true /\
  slug (slug s) = slug s.
Proof.
  unfold slug, JsString.replace_whitespace.
  pose proof (SlugShape.replace_runs_clean (JsString.toLowerCase s) false) as Hsp.
  pose proof (SlugShape.replace_runs_no_upper _ (SlugShape.toLowerCase_no_upper s) false)
    as Hup.
  split; [exact Hsp|]. split; [exact Hup|].
  rewrite (SlugShape.toLowerCase_fixed _ Hup).
  apply SlugFacts.replace_runs_no_space. exact Hsp.
Qed.

(** ** The flow: what a step never does *)

(** X19: within a session nothing goes back.  A step from a reachable state
    that keeps a session keeps its category; the index and the score do not
    decrease, and the answers given so far stay, in place, as the beginning
    of the new answers. *)
Theorem no_going_back (s s' : State) (e : Event) (c c' : TestCategory) :
  reachable s -> rendered s e = true -> step s e = OK s' ->
  selectedCategory s = Some c -> selectedCategory s' = Some c' ->
  c' = c /\
  (currentQuestionIndex s <= currentQuestionIndex s')%nat /\
  (score s <= score s')%nat /\
  exists more, userAnswers s' = userAnswers s ++ more.
Proof.
  intros Hreach Hr Hs Hc Hc'. pose proof (reachable_inv s Hreach) as Hinv.
  destruct e as [data| |k|index| | |]; simpl in Hr, Hs.
  - destruct (load data); injection Hs as <-; simpl in Hc';
      (split; [congruence|]); repeat split; auto; exists []; now rewrite app_nil_r.
  - injection Hs as <-. simpl in Hc'.
    (split; [congruence|]); repeat split; auto; exists []; now rewrite app_nil_r.
  - destruct (currentState s) eqn:Hst; try discriminate.
    destruct (inv_screen s Hinv c Hc) as [H|[H _]]; congruence.
  - destruct (shownQuestion s) as [q|] eqn:Hq; [|discriminate].
    apply shownQuestion_Some in Hq. destruct Hq as (_ & c0 & Hc0 & Hq).
    apply andb_prop in Hr. destruct Hr as [_ Hshow]. apply negb_true_iff in Hshow.
    rewrite (handleAnswer_fresh s c0 q _ Hc0 Hq Hshow) in Hs. injection Hs as <-.
    simpl in *. split; [congruence|]. repeat split; try lia. eauto.
  - injection Hs as <-. simpl in Hc'.
    (split; [congruence|]); repeat split; auto; exists []; now rewrite app_nil_r.
  - rewrite (handleNext_cases s c Hc (inv_index s Hinv c Hc)) in Hs.
    destruct (S (currentQuestionIndex s) =? length (questions c))%nat;
      injection Hs as <-; simpl in *; (split; [congruence|]);
      repeat split; try lia; exists []; now rewrite app_nil_r.
  - injection Hs as <-. discriminate.
Qed.

Lemma no_going_back_witness :
  exists c s',
    selectedCategory answered_wrong_session = Some c /\
    step answered_wrong_session ClickNext = OK s' /\
    (currentQuestionIndex answered_wrong_session <= currentQuestionIndex s')%nat /\
    (score answered_wrong_session <= score s')%nat /\
    exists more, userAnswers s' = userAnswers answered_wrong_session ++ more.
Proof.
  eexists. eexists. split; [reflexivity|]. split; [reflexivity|].
  eapply (no_going_back answered_wrong_session _ ClickNext _ _
                        answered_wrong_reachable); reflexivity.
Defined.

(** X20: starting over gives what a first start gives.  From a reachable
    results screen, NEW ASSESSMENT, BEGIN ASSESSMENT and the [k]-th category
    button lead to the fresh testing screen of the [k]-th category: nothing
    of the finished session is left but the voice setting and the catalog. *)
Theorem restart_is_fresh (s : State) (k : nat) (c : TestCategory) :
  reachable s -> currentState s = results ->
  nth_error (testCategories s) k = Some c ->
  run s [ClickNewAssessment; ClickBegin; ClickCategory k] =
  Some {| currentState := testing;
          selectedCategory := Some c;
          currentQuestionIndex := 0;
          userAnswers := [];
          showExplanation := false;
          score := 0;
          voiceOn := voiceOn s;
          testCategories := testCategories s |}.
Proof.
  intros Hreach Hst Hk. pose proof (reachable_inv s Hreach) as Hinv.
  destruct (selectedCategory s) as [c0|] eqn:Hc.
  2:{ destruct (inv_no_session s Hinv Hc); congruence. }
  assert (Hlt : (k <? length (testCategories s))%nat = true).
  { apply Nat.ltb_lt, nth_error_Some. congruence. }
  cbn [run rendered step]. rewrite Hst, Hc.
  cbn [resetTest handleStart setScore setShowExplanation setUserAnswers
       setCurrentQuestionIndex setSelectedCategory setCurrentState
       currentState testCategories selectedCategory currentQuestionIndex
       userAnswers showExplanation score voiceOn].
  rewrite Hlt, Hk. reflexivity.
Qed.

Lemma restart_is_fresh_witness :
  exists c,
    nth_error (testCategories finished_session) 0 = Some c /\
    run finished_session [ClickNewAssessment; ClickBegin; ClickCategory 0] =
    Some {| currentState := testing;
            selectedCategory := Some c;
            currentQuestionIndex := 0;
            userAnswers := [];
            showExplanation := false;
            score := 0;
            voiceOn := voiceOn finished_session;
            testCategories := testCategories finished_session |}.
Proof.
  eexists. split; [reflexivity|].
  apply (restart_is_fresh finished_session 0 _ finished_reachable); reflexivity.
Defined.

Lemma render_results (s : State) (c : TestCategory) :
  currentState s = results -> selectedCategory s = Some c ->
  exists r, render s = OK (ResultsView r).
Proof.
  intros Hst Hc. unfold render. rewrite Hst, Hc.
  destruct (getScoreMessage_OK s c Hc) as [m Hm].
  unfold accuracyPercent. rewrite Hc, Hm. simpl. eauto.
Qed.

(** X21: what can be clicked is what the screen shows.  For every state and
    every click, the click is possible exactly when rendering the state
    succeeds and the screen contains the control, enabled: the option
    buttons while no feedback shows, the Next button while it shows. *)
Theorem rendered_is_on_screen (s : State) (e : Event) :
  (forall data, e <> Fetched data) ->
  rendered s e =
  match render s with
  | OK v => clickable v e
  | Throw _ => false
  end.
Proof.
  intros Hfetch. destruct (currentState s) eqn:Hst.
  - unfold render. rewrite Hst.
    destruct e; simpl; unfold shownQuestion; rewrite ?Hst; try reflexivity.
    now elim (Hfetch data).
  - unfold render. rewrite Hst.
    destruct e; simpl; unfold shownQuestion; rewrite ?Hst, ?length_map;
      try reflexivity.
    now elim (Hfetch data).
  - unfold render. rewrite Hst.
    destruct (selectedCategory s) as [c|] eqn:Hc.
    + destruct (nth_error (questions c) (currentQuestionIndex s)) as [q|] eqn:Hq.
      * destruct e; simpl; unfold shownQuestion; rewrite ?Hst, ?Hc, ?Hq;
          try reflexivity.
        -- now elim (Hfetch data).
        -- rewrite nth_error_mapi_from.
           destruct (nth_error (options q) index) as [o|] eqn:Ho; simpl.
           ++ assert (index < length (options q))%nat
                by (apply nth_error_Some; congruence).
              destruct (Nat.ltb_spec index (length (options q)));
                [reflexivity | lia].
           ++ apply nth_error_None in Ho.
              destruct (Nat.ltb_spec index (length (options q)));
                [lia | reflexivity].
        -- now destruct (showExplanation s).
      * destruct e; simpl; unfold shownQuestion; rewrite ?Hst, ?Hc, ?Hq;
          try reflexivity.
        now elim (Hfetch data).
    + destruct e; simpl; unfold shownQuestion; rewrite ?Hst, ?Hc;
        try reflexivity.
      now elim (Hfetch data).
  - destruct (selectedCategory s) as [c|] eqn:Hc.
    + destruct (render_results s c Hst Hc) as [r ->].
      destruct e; simpl; unfold shownQuestion; rewrite ?Hst, ?Hc;
        try reflexivity.
      now elim (Hfetch data).
    + unfold render. rewrite Hst, Hc.
      destruct e; simpl; unfold shownQuestion; rewrite ?Hst, ?Hc;
        try reflexivity.
      now elim (Hfetch data).
Qed.

Lemma rendered_is_on_screen_witness :
  rendered answered_wrong_session ClickNext = true /\
  rendered answered_wrong_session (ClickOption 0) = false /\
  rendered answered_wrong_session ClickNext =
  match render answered_wrong_session with
  | OK v => clickable v ClickNext
  | Throw _ => false
  end.
Proof.
  split; [reflexivity|]. split; [reflexivity|].
  apply (rendered_is_on_screen answered_wrong_session ClickNext). discriminate.
Defined.

(** X22: a session can always be finished when every question has an
    option.  From every reachable testing screen of such a category some
    sequence of clicks leads to the results screen. *)
Theorem session_can_finish (s : State) (c : TestCategory) :
  reachable s -> currentState s = testing -> selectedCategory s = Some c ->
  Forall (fun q => options q <> []) (questions c) ->
  exists es s', run s es = Some s' /\ currentState s' = results.
Proof.
  intros Hreach Hst Hc Hopts. pose proof (reachable_inv s Hreach) as Hinv.
  pose proof (inv_index s Hinv c Hc) as Hidx.
  assert (Hpicks : forall qs,
             Forall (fun q => options q <> []) qs ->
             Forall2 (fun index q => (index < length (options q))%nat)
                     (first_options qs) qs).
  { induction 1 as [|q qs Hq _ IH]; simpl; constructor; [|exact IH].
    destruct (options q); [congruence | simpl; lia]. }
  assert (Hskip : forall i, (i < length (questions c))%nat ->
                            skipn i (questions c) <> []).
  { intros i Hi E. apply (f_equal (@length _)) in E.
    rewrite length_skipn in E. simpl in E. lia. }
  assert (Hrest : forall i, Forall (fun q => options q <> []) (skipn i (questions c))).
  { intros i. apply Forall_forall. intros q Hq. rewrite Forall_forall in Hopts.
    apply Hopts. rewrite <- (firstn_skipn i). apply in_or_app. now right. }
  destruct (showExplanation s) eqn:Hshow.
  - destruct (nth_error (questions c) (currentQuestionIndex s)) as [q|] eqn:Hq.
    2:{ apply nth_error_None in Hq. lia. }
    assert (Hr : rendered s ClickNext = true).
    { simpl. unfold shownQuestion. now rewrite Hst, Hc, Hq. }
    destruct (S (currentQuestionIndex s) =? length (questions c))%nat eqn:E.
    + exists [ClickNext]. eexists. cbn [run]. rewrite Hr. cbn [step].
      rewrite (handleNext_cases s c Hc Hidx), E. split; reflexivity.
    + apply Nat.eqb_neq in E.
      set (s2 := setShowExplanation false
                   (setCurrentQuestionIndex (currentQuestionIndex s + 1) s)).
      destruct (run_rest c (first_options (skipn (currentQuestionIndex s2) (questions c))) s2)
        as (s' & Hrun & Hres & _); simpl; auto.
      * apply Hskip. lia.
      * exists (ClickNext :: answer_each
                  (first_options (skipn (currentQuestionIndex s2) (questions c)))).
        exists s'. cbn [run]. rewrite Hr. cbn [step].
        rewrite (handleNext_cases s c Hc Hidx).
        apply Nat.eqb_neq in E. rewrite E. split; [exact Hrun | exact Hres].
  - destruct (run_rest c (first_options (skipn (currentQuestionIndex s) (questions c))) s)
      as (s' & Hrun & Hres & _); auto.
    eauto.
Qed.

Lemma session_can_finish_witness :
  exists es s',
    run answered_wrong_session es = Some s' /\ currentState s' = results.
Proof.
  eapply (session_can_finish answered_wrong_session _ answered_wrong_reachable);
    [reflexivity | reflexivity | repeat constructor; discriminate].
Defined.

(** ** The icons *)

Module IncludesFacts.
Import JsString.
Local Open Scope string_scope.

Lemma prefix_spec (a : string) :
  forall b, String.prefix a b = true <-> exists post, b = a ++ post.
Proof.
  induction a as [|x a IH]; intros [|y b]; simpl.
  - split; [intros _; now exists "" | reflexivity].
  - split; [intros _; now exists (String y b) | reflexivity].
  - split; [discriminate | intros [post H]; discriminate].
  - destruct (ascii_dec x y) as [->|Hne].
    + rewrite IH. split; intros [post H]; exists post; congruence.
    + split; [discriminate | intros [post H]; congruence].
Qed.

Lemma includes_spec (hay needle : string) :
  includes hay needle = true <-> exists pre post, hay = pre ++ needle ++ post.
Proof.
  induction hay as [|c r IH].
  - cbn [includes]. rewrite orb_false_r, prefix_spec. split.
    + intros [post H]. now exists "", post.
    + intros (pre & post & H). destruct pre; [|discriminate]. now exists post.
  - cbn [includes]. rewrite orb_true_iff, prefix_spec, IH. split.
    + intros [[post H]|(pre & post & H)].
      * now exists "", post.
      * exists (String c pre), post. simpl. now rewrite H.
    + intros (pre & post & H). destruct pre as [|x pre]; simpl in H.
      * left. now exists post.
      * right. exists pre, post. congruence.
Qed.

End IncludesFacts.

(** X23: the icon of a category is chosen by the first of the keywords
    software, computer, logical, quantitative, verbal that occurs anywhere
    in its name, in any mix of upper and lower case; a name with none of
    them gets the award icon. *)
Theorem icon_by_keyword (category : string) :
  (has_keyword category "software" -> getIconForCategory category = Code) /\
  (~ has_keyword category "software" ->
   (has_keyword category "computer" -> getIconForCategory category = Monitor) /\
   (~ has_keyword category "computer" ->
    (has_keyword category "logical" -> getIconForCategory category = Brain) /\
    (~ has_keyword category "logical" ->
     (has_keyword category "quantitative" ->
      getIconForCategory category = Calculator) /\
     (~ has_keyword category "quantitative" ->
      (has_keyword category "verbal" ->
       getIconForCategory category = MessageCircle) /\
      (~ has_keyword category "verbal" ->
       getIconForCategory category = Award))))).
Proof.
  unfold getIconForCategory, has_keyword.
  repeat match goal with
         | |- context [JsString.includes ?h ?w] =>
             let E := fresh "E" in
             pose proof (IncludesFacts.includes_spec h w) as E;
             destruct (JsString.includes h w)
         end;
    repeat split; intros;
    repeat match goal with
           | H : true = true <-> _ |- _ => destruct H
           | H : false = true <-> _ |- _ => destruct H
           end;
    try reflexivity; try tauto;
    try (exfalso; match goal with
                  | H : ?P -> false = true, H' : ?P |- _ => discriminate (H H')
                  end);
    try (exfalso; match goal with
                  | H : true = true -> ?P, H' : ~ ?P |- _ => exact (H' (H eq_refl))
                  end).
Qed.

Lemma icon_by_keyword_witness :
  has_keyword "Computer SOFTWARE and Hardware" "computer" /\
  getIconForCategory "Computer SOFTWARE and Hardware" = Code.
Proof.
  split.
  - exists "", " software and hardware". reflexivity.
  - apply (proj1 (icon_by_keyword "Computer SOFTWARE and Hardware")).
    exists "computer ", " and hardware". reflexivity.
Defined.
